(** * frag-x: authoritative simulation, weapons and network framing

    A shallow embedding of the Python sources
    - [simulation_object/hitscan_beam.py]  (module [Beam]),
    - [weapons/weapon.py]                  (module [Weapons]),
    - [frag-x-py/server.py]                (modules [Server], [Locks]),
    - [client.py]                          (module [Framing]),
    followed by the properties established about them.

    Conventions.  Python objects that are mutated through several references
    live in an explicit heap ([gmap] from locations to records); Python
    exceptions are the [Raise] constructor of [result]; pygame's floating
    point coordinates are idealised as rationals ([Q]); functions of modules
    that are not part of the sources at hand are Section variables. *)

From Stdlib Require Import Ascii String ZArith QArith Lia List.
From stdpp Require Import base option gmap list.

Local Open Scope Z_scope.

(** ** Python exceptions *)

Inductive exn : Type :=
| ValueError
| TypeError
| ZeroDivisionError
| OtherError.

Inductive result (A : Type) : Type :=
| Ok (a : A)
| Raise (e : exn).
Arguments Ok {A} a.
Arguments Raise {A} e.

Definition rbind {A B : Type} (r : result A) (k : A -> result B) : result B :=
  match r with
  | Ok a => k a
  | Raise e => Raise e
  end.

Notation "'let!' x ':=' r 'in' k" := (rbind r (fun x => k))
  (at level 10, x name, r at level 100, k at level 200).

(** ** pygame.math.Vector2, over the rationals *)

Record Vec : Type := mkVec { vx : Q; vy : Q }.

Definition vzero : Vec := mkVec 0%Q 0%Q.
Definition vadd (a b : Vec) : Vec := mkVec (vx a + vx b)%Q (vy a + vy b)%Q.
Definition vsub (a b : Vec) : Vec := mkVec (vx a - vx b)%Q (vy a - vy b)%Q.
Definition vscale (a : Vec) (k : Q) : Vec := mkVec (vx a * k)%Q (vy a * k)%Q.
Definition length_squared (a : Vec) : Q := (vx a * vx a + vy a * vy a)%Q.

(** [x == 0] on a rational in any representation. *)
Definition q_is_zero (q : Q) : bool := (Qnum q =? 0).

(** [Vector2.normalize]: pygame raises [ValueError] on a vector of length
    zero; [unit_vector] is its result on the others. *)
Definition normalize (unit_vector : Vec -> Vec) (v : Vec) : result Vec :=
  if q_is_zero (length_squared v) then Raise ValueError else Ok (unit_vector v).

(** ** simulation_object/hitscan_beam.py *)

Module Beam.

Definition loc := nat.

(** A simulation object as [HitscanBeam.step] reads and writes it. *)
Record Player : Type := mkPlayer {
  uuid : Z;
  health : Z;
  velocity : Vec;
  time_of_death : option Z;
  num_frags : Z
}.

Definition set_health (h : Z) (p : Player) : Player :=
  mkPlayer (uuid p) h (velocity p) (time_of_death p) (num_frags p).
Definition set_velocity (v : Vec) (p : Player) : Player :=
  mkPlayer (uuid p) (health p) v (time_of_death p) (num_frags p).
Definition set_time_of_death (t : option Z) (p : Player) : Player :=
  mkPlayer (uuid p) (health p) (velocity p) t (num_frags p).
Definition set_num_frags (n : Z) (p : Player) : Player :=
  mkPlayer (uuid p) (health p) (velocity p) (time_of_death p) n.

(** What the intersection engine may return as the closest entity: an object
    without a [uuid] attribute (a wall), or a reference to an object that has
    one. *)
Inductive Entity : Type :=
| EWall
| EObject (l : loc).

(** [global_simulation.SIMULATION]: the objects, and the keys of
    [SIMULATION.players]. *)
Record Simulation : Type := mkSimulation {
  heap : gmap loc Player;
  players : gset Z
}.

Record HitscanBeam : Type := mkHitscanBeam {
  beam_uuid : Z;
  player : loc;
  delta_y : Q;
  delta_x : Q;
  direction_vector : Vec;
  start_point : Vec;
  end_point : Vec;
  damage : Z;
  collision_force : Q;
  slope : Q;
  quadrant_info : Z * Z
}.

Section Init.

(** pygame's [Vector2.normalize] on a vector of non-zero length. *)
Variable unit_vector : Vec -> Vec.
(** [helpers.get_slope] and [helpers.get_sign]. *)
Variable get_slope : Vec -> Vec -> result Q.
Variable get_sign : Q -> Z.

(** [HitscanBeam.__init__]; [new_uuid] is what [SimulationObject.__init__]
    assigns. *)
Definition init (new_uuid : Z) (owner : loc) (start_pt end_pt : Vec)
    (force : Q) (dmg : Z) : result HitscanBeam :=
  let dy := (vy end_pt - vy start_pt)%Q in
  let dx := (vx end_pt - vx start_pt)%Q in
  let! dir := normalize unit_vector (vsub end_pt start_pt) in
  let! sl := get_slope start_pt end_pt in
  Ok (mkHitscanBeam new_uuid owner dy dx dir start_pt end_pt dmg force sl
        (get_sign dx, get_sign dy)).

End Init.

(** [HitscanBeam.step].  [closest_hit] and [closest_entity] are the pair
    returned by [intersections.get_closest_intersecting_object_in_pmg] and
    [ticks] is [pygame.time.get_ticks()]. *)
Definition step (b : HitscanBeam) (closest_hit : option Vec)
    (closest_entity : option Entity) (ticks : Z) (sim : Simulation) : Simulation :=
  match closest_hit, closest_entity with
  | Some _, Some (EObject l) =>
      match heap sim !! l with
      | Some hit_player =>
          if decide (uuid hit_player ∈ players sim) then
            let new_health := health hit_player - damage b in
            let h1 := alter (set_health new_health) l (heap sim) in
            if new_health <=? 0 then
              let h2 := alter (set_velocity vzero) l h1 in
              let h3 :=
                match time_of_death hit_player with
                | None => alter (set_time_of_death (Some ticks)) l h2
                | Some _ => h2
                end in
              let h4 := alter (fun p => set_num_frags (num_frags p + 1) p) (player b) h3 in
              mkSimulation h4 (players sim)
            else
              let h2 :=
                alter (fun p => set_velocity
                                  (vadd (velocity p)
                                        (vscale (direction_vector b) (collision_force b))) p)
                      l h1 in
              mkSimulation h2 (players sim)
          else sim
      | None => sim
      end
  | _, _ => sim
  end.

End Beam.

(** ** weapons/weapon.py *)

Module Weapons.

(** The values [RadialExplosives.activate] passes around. *)
Inductive pyval : Type :=
| PVec (v : Vec)
| PNum (q : Q).

(** The module's own [HitscanBeam] class (it has no owner and no uuid). *)
Record HitscanBeam : Type := mkHitscanBeam {
  delta_y : Q;
  delta_x : Q;
  direction_vector : Vec;
  start_point : Vec;
  end_point : Vec;
  damage : Q;
  collision_force : Q;
  slope : Q;
  quadrant_info : Z * Z
}.

(** [Weapon]: the fields [Weapon.__init__] sets. *)
Record Weapon : Type := mkWeapon {
  fire_rate_hz : Q;
  seconds_per_shot : Q;
  time_since_last_shot : Q
}.

(** [Weapon.__init__]: [1 / fire_rate_hz] raises on a zero rate; the weapon
    starts at a value where it can shoot immediately.  [float_div] is the
    division of Python floats by a non-zero divisor, which rounds: the
    quotient is not taken to be the exact one. *)
Definition Weapon_init (float_div : Q -> Q -> Q) (rate : Q) : result Weapon :=
  if q_is_zero rate then Raise ZeroDivisionError
  else let sps := float_div 1%Q rate in Ok (mkWeapon rate sps sps).

Record RadialExplosives : Type := mkRadialExplosives {
  radius : Q;
  power : Q;
  num_shards : Z
}.

(** [RadialExplosives.__init__] with its default arguments. *)
Definition RadialExplosives_default : RadialExplosives :=
  mkRadialExplosives 100%Q 750%Q 32.

Section Payload.

(** pygame's [Vector2.normalize] on a vector of non-zero length;
    [helpers.get_slope], [helpers.get_sign], [helpers.polar_to_cartesian]
    of the [weapons] package; and [math.tau]. *)
Variable unit_vector : Vec -> Vec.
Variable get_slope : Vec -> Vec -> result Q.
Variable get_sign : Q -> Z.
Variable polar_to_cartesian : Q -> Q -> Q * Q.
Variable tau : Q.

(** [HitscanBeam.__init__(self, start_point, end_point, collision_force,
    damage)] once its four parameters are bound. *)
Definition HitscanBeam_init (start_pt end_pt : Vec) (force dmg : Q) : result HitscanBeam :=
  let dy := (vy end_pt - vy start_pt)%Q in
  let dx := (vx end_pt - vx start_pt)%Q in
  let! dir := normalize unit_vector (vsub end_pt start_pt) in
  let! sl := get_slope start_pt end_pt in
  Ok (mkHitscanBeam dy dx dir start_pt end_pt dmg force sl
        (get_sign dx, get_sign dy)).

(** The call [HitscanBeam(args...)] with positional arguments: none of the
    four parameters has a default, so Python raises [TypeError] unless all
    four are given (and subscripting a number raises it as well). *)
Definition HitscanBeam_call (args : list pyval) : result HitscanBeam :=
  match args with
  | [PVec start_pt; PVec end_pt; PNum force; PNum dmg] =>
      HitscanBeam_init start_pt end_pt force dmg
  | _ => Raise TypeError
  end.

(** The body of the [for i in range(self.num_shards)] loop, over the
    remaining indices. *)
Fixpoint activate_loop (r : RadialExplosives) (pos : Vec) (angle_fraction : Q)
    (indices : list Z) (explosion_beams : list HitscanBeam)
    : result (list HitscanBeam) :=
  match indices with
  | [] => Ok explosion_beams
  | i :: rest =>
      let angle := (angle_fraction * inject_Z i)%Q in
      let '(x, y) := polar_to_cartesian (radius r) angle in
      let relative_shard_vec := mkVec x y in
      let shard_vec := vadd relative_shard_vec pos in
      let! beam := HitscanBeam_call [PVec pos; PVec shard_vec] in
      activate_loop r pos angle_fraction rest (explosion_beams ++ [beam])
  end.

(** [RadialExplosives.activate]. *)
Definition activate (r : RadialExplosives) (pos : Vec) : result (list HitscanBeam) :=
  if num_shards r =? 0 then Raise ZeroDivisionError
  else
    let angle_fraction := (tau / inject_Z (num_shards r))%Q in
    activate_loop r pos angle_fraction (seqZ 0 (num_shards r)) [].

End Payload.

Section Cooldown.

(** What one successful shot produces (a beam or a projectile). *)
Variable Shot : Type.
Variable emit : Vec -> Q -> Shot.

(** Simulated time passing for a weapon. *)
Definition elapse (dt : Q) (w : Weapon) : Weapon :=
  mkWeapon (fire_rate_hz w) (seconds_per_shot w) (time_since_last_shot w + dt)%Q.

(** Modelled from the spec: the body of a concrete weapon's [fire], which
    [Weapon.fire] leaves abstract and whose subclasses are not among the
    sources.  A weapon may not fire again until [1/fire_rate_hz] seconds have
    elapsed since its last shot; attempting to fire earlier is a no-op, not
    an error. *)
Definition fire (w : Weapon) (firing_position : Vec) (aim_angle : Q)
    : Weapon * list Shot :=
  if Qle_bool (seconds_per_shot w) (time_since_last_shot w)
  then (mkWeapon (fire_rate_hz w) (seconds_per_shot w) 0%Q,
        [emit firing_position aim_angle])
  else (w, []).

End Cooldown.

End Weapons.

(** ** frag-x-py/server.py: the data path *)

Module Server.

Definition bytes := list Byte.byte.
Definition conn := nat.

(** [str.split('~')]: the pieces between separators, never an empty list. *)
Fixpoint split_tilde (s : string) : list string :=
  match s with
  | EmptyString => [EmptyString]
  | String c rest =>
      if Ascii.eqb c "~"%char then EmptyString :: split_tilde rest
      else match split_tilde rest with
           | piece :: pieces => String c piece :: pieces
           | [] => [String c EmptyString]
           end
  end.

(** ['~'.join(pieces)], the inverse of the split. *)
Fixpoint join_tilde (pieces : list string) : string :=
  match pieces with
  | [] => EmptyString
  | piece :: rest =>
      match rest with
      | [] => piece
      | _ :: _ => String.append piece (String "~"%char (join_tilde rest))
      end
  end.

(** ['~' in s]. *)
Fixpoint has_tilde (s : string) : bool :=
  match s with
  | EmptyString => false
  | String c rest => Ascii.eqb c "~"%char || has_tilde rest
  end.

(** The tuple [(player_id, dx, dy, dm, delta_time)] put on the queue. *)
Record PlayerData : Type := mkPlayerData {
  player_id : Z;
  dx : Q;
  dy : Q;
  dm : Q;
  delta_time : Q
}.

(** What a blocking [conn.recv(BUF_SIZE)] does: return bytes (none at all
    when the peer is gone) or raise. *)
Inductive recv_result : Type :=
| RecvBytes (data : bytes)
| RecvRaises.

Inductive producer_status : Type :=
| Receiving (recv_buffer : string)
| Exited.

Section Data.

(** [player.ServerPlayer] and its methods, [converters.str_to_player_data],
    [bytes.decode] and [pickle.dumps]. *)
Variable ServerPlayer : Type.
Variable Sendable : Type.
Variable new_player : Z -> conn -> ServerPlayer.
Variable socket : ServerPlayer -> conn.
Variable update_position : Q -> Q -> Q -> ServerPlayer -> ServerPlayer.
Variable update_aim : Q -> ServerPlayer -> ServerPlayer.
Variable get_sendable_state : ServerPlayer -> Sendable.
Variable str_to_player_data : string -> result PlayerData.
Variable decode_utf8 : bytes -> result string.
Variable pickle_dumps : list Sendable -> bytes.

(** A Python [dict] keyed by player id, in insertion order. *)
Definition dict := list (Z * ServerPlayer).

Fixpoint dict_get (k : Z) (d : dict) : option ServerPlayer :=
  match d with
  | [] => None
  | (k', v) :: rest => if k' =? k then Some v else dict_get k rest
  end.

(** [d[k] = v]: overwrite in place or append. *)
Fixpoint dict_set (k : Z) (v : ServerPlayer) (d : dict) : dict :=
  match d with
  | [] => [(k, v)]
  | (k', v') :: rest =>
      if k' =? k then (k', v) :: rest else (k', v') :: dict_set k v rest
  end.

(** Mutating the object stored under [k], if there is one. *)
Fixpoint dict_alter (f : ServerPlayer -> ServerPlayer) (k : Z) (d : dict) : dict :=
  match d with
  | [] => []
  | (k', v) :: rest =>
      if k' =? k then (k', f v) :: rest else (k', v) :: dict_alter f k rest
  end.

(** The module's globals, the sockets closed so far and the log of the
    [sendall] calls that went through. *)
Record State : Type := mkState {
  state_queue : list PlayerData;
  id_to_player : dict;
  server_updates : list Sendable;
  closed : list conn;
  delivered : list (conn * bytes)
}.

Definition set_queue (q : list PlayerData) (st : State) : State :=
  mkState q (id_to_player st) (server_updates st) (closed st) (delivered st).
Definition close (c : conn) (st : State) : State :=
  mkState (state_queue st) (id_to_player st) (server_updates st)
          (c :: closed st) (delivered st).

(** *** client_state_producer *)

(** The [for player_data in messages[:-1]] loop; an exception of
    [str_to_player_data] leaves it. *)
Fixpoint put_all (messages : list string) (q : list PlayerData)
    : list PlayerData * option exn :=
  match messages with
  | [] => (q, None)
  | player_data :: rest =>
      match str_to_player_data player_data with
      | Ok d => put_all rest (q ++ [d])
      | Raise e => (q, Some e)
      end
  end.

(** One pass through the body of [while True]. *)
Definition producer_iteration (c : conn) (r : recv_result) (recv_buffer : string)
    (st : State) : producer_status * State :=
  match r with
  | RecvRaises => (Exited, close c st)
  | RecvBytes [] => (Exited, close c st)
  | RecvBytes data =>
      match decode_utf8 data with
      | Raise _ => (Exited, close c st)
      | Ok text =>
          let messages := split_tilde (String.append recv_buffer text) in
          match put_all (List.removelast messages) (state_queue st) with
          | (q, None) => (Receiving (List.last messages EmptyString), set_queue q st)
          | (q, Some _) => (Exited, close c (set_queue q st))
          end
      end
  end.

(** The thread, against the successive outcomes of its [recv] calls.  When
    they run out the thread is blocked in [recv]. *)
Fixpoint producer_loop (c : conn) (events : list recv_result) (recv_buffer : string)
    (st : State) : producer_status * State :=
  match events with
  | [] => (Receiving recv_buffer, st)
  | r :: rest =>
      match producer_iteration c r recv_buffer st with
      | (Receiving buf, st') => producer_loop c rest buf st'
      | (Exited, st') => (Exited, st')
      end
  end.

Definition client_state_producer (c : conn) (events : list recv_result) (st : State)
    : producer_status * State :=
  producer_loop c events EmptyString st.

(** *** threaded_server_acceptor: one connection accepted *)

Definition accept_connection (pid : Z) (c : conn) (st : State) : State :=
  mkState (state_queue st) (dict_set pid (new_player pid c) (id_to_player st))
          (server_updates st) (closed st) (delivered st).

(** *** The tick loop *)

(** [p.update_position(dx, dy, delta_time); p.update_aim(dm)]. *)
Definition apply_to_player (m : PlayerData) (p : ServerPlayer) : ServerPlayer :=
  update_aim (dm m) (update_position (dx m) (dy m) (delta_time m) p).

(** The body of [while not state_queue.empty()], for one message. *)
Definition apply_input (d : dict) (m : PlayerData) : dict :=
  match dict_get (player_id m) d with
  | Some _ => dict_alter (apply_to_player m) (player_id m) d
  | None => d
  end.

(** The drain loop: [get] takes the oldest message until none is left. *)
Fixpoint drain (q : list PlayerData) (d : dict) : list PlayerData * dict :=
  match q with
  | [] => ([], d)
  | m :: rest => drain rest (apply_input d m)
  end.

(** [for p in id_to_player.values(): server_updates.append(...)]. *)
Fixpoint collect (ps : dict) (updates : list Sendable) : list Sendable :=
  match ps with
  | [] => updates
  | (_, p) :: rest => collect rest (updates ++ [get_sendable_state p])
  end.

(** [socket.sendall] raises on a socket this process has closed and where
    the environment ([send_raises]) makes it fail. *)
Definition sendall (send_raises : conn -> bool) (c : conn) (payload : bytes)
    (st_closed : list conn) (log : list (conn * bytes))
    : result (list (conn * bytes)) :=
  if send_raises c || bool_decide (c ∈ st_closed) then Raise OtherError
  else Ok (log ++ [(c, payload)]).

(** [for p in id_to_player.values(): p.socket.sendall(pickle.dumps(...))]:
    nothing catches an exception of [sendall], which ends the loop; the log
    is returned with it. *)
Fixpoint send_loop (send_raises : conn -> bool) (ps : dict) (updates : list Sendable)
    (st_closed : list conn) (log : list (conn * bytes))
    : list (conn * bytes) * option exn :=
  match ps with
  | [] => (log, None)
  | (_, p) :: rest =>
      match sendall send_raises (socket p) (pickle_dumps updates) st_closed log with
      | Ok log' => send_loop send_raises rest updates st_closed log'
      | Raise e => (log, Some e)
      end
  end.

(** One pass through the main [while True]; [Some e] when the pass, and the
    main thread with it, ended in an exception. *)
Definition tick (send_raises : conn -> bool) (st : State) : State * option exn :=
  let '(q, d) := drain (state_queue st) (id_to_player st) in
  let updates := collect d (server_updates st) in
  match send_loop send_raises d updates (closed st) (delivered st) with
  | (log, None) => (mkState q d [] (closed st) log, None)
  | (log, Some e) => (mkState q d updates (closed st) log, Some e)
  end.

(** *** threaded_server_acceptor: the loop *)

(** [str.encode(str(player_id))]. *)
Variable encode_id : Z -> bytes.

Definition set_delivered (log : list (conn * bytes)) (st : State) : State :=
  mkState (state_queue st) (id_to_player st) (server_updates st) (closed st) log.

(** One pass through the acceptor's [while True], for the connection that
    [s.accept()] returned: the id is sent first, unguarded, then the player
    is registered and the counter moves on. *)
Definition acceptor_iteration (send_raises : conn -> bool) (c : conn) (pid : Z)
    (st : State) : result (Z * State) :=
  match sendall send_raises c (encode_id pid) (closed st) (delivered st) with
  | Ok log => Ok (pid + 1, accept_connection pid c (set_delivered log st))
  | Raise e => Raise e
  end.

(** The thread, against the connections accepted one after the other,
    starting from [player_id]; when they run out it is blocked in
    [s.accept()]; an exception ends it. *)
Fixpoint threaded_server_acceptor (send_raises : conn -> bool) (accepted : list conn)
    (pid : Z) (st : State) : Z * State * option exn :=
  match accepted with
  | [] => (pid, st, None)
  | c :: rest =>
      match acceptor_iteration send_raises c pid st with
      | Ok (pid', st') => threaded_server_acceptor send_raises rest pid' st'
      | Raise e => (pid, st, Some e)
      end
  end.

(** The snapshot a pass assembles before it sends anything. *)
Definition tick_snapshot (st : State) : list Sendable :=
  collect (snd (drain (state_queue st) (id_to_player st))) (server_updates st).

(** *** Notions used to state the properties *)

(** The net effect of a queue on the player of id [k], in the words of the
    property and not through the code of the drain: for each input addressed
    to [k], oldest first, the position is advanced by [(dx, dy)] over
    [delta_time] with [update_position], then the aim by [dm] with
    [update_aim]; the other inputs do nothing to this player. *)
Definition net_effect (k : Z) (q : list PlayerData) (p : ServerPlayer) : ServerPlayer :=
  fold_left
    (fun p' m =>
       if player_id m =? k
       then update_aim (dm m) (update_position (dx m) (dy m) (delta_time m) p')
       else p')
    q p.

(** The input names a player that is in the map. *)
Definition addresses_a_player (d : dict) (m : PlayerData) : bool :=
  match dict_get (player_id m) d with
  | Some _ => true
  | None => false
  end.

(** The player map after all of a queue. *)
Definition after_inputs (q : list PlayerData) (d : dict) : dict :=
  map (fun entry => (fst entry, net_effect (fst entry) q (snd entry))) d.

(** The two shapes of a lost connection. *)
Definition connection_lost (r : recv_result) : bool :=
  match r with
  | RecvRaises => true
  | RecvBytes [] => true
  | RecvBytes _ => false
  end.

(** A client the pass can send to. *)
Definition can_send (send_raises : conn -> bool) (st_closed : list conn) (c : conn) : bool :=
  negb (send_raises c || bool_decide (c ∈ st_closed)).

(** "A failed send to one client does not block delivery to others": every
    client that can be sent to has received the snapshot when the pass is
    over. *)
Definition failed_send_does_not_block : Prop :=
  forall (send_raises : conn -> bool) (st : State) (k : Z) (p : ServerPlayer),
    dict_get k (id_to_player st) = Some p ->
    can_send send_raises (closed st) (socket p) = true ->
    In (socket p, pickle_dumps (tick_snapshot st))
       (delivered (fst (tick send_raises st))).

End Data.

Arguments mkState {ServerPlayer Sendable} _ _ _ _ _.
Arguments state_queue {ServerPlayer Sendable} _.
Arguments id_to_player {ServerPlayer Sendable} _.
Arguments server_updates {ServerPlayer Sendable} _.
Arguments closed {ServerPlayer Sendable} _.
Arguments delivered {ServerPlayer Sendable} _.
Arguments dict_get {ServerPlayer} _ _.
Arguments dict_set {ServerPlayer} _ _ _.
Arguments dict_alter {ServerPlayer} _ _ _.

End Server.

(** ** frag-x-py/server.py: the threads and the two locks

    The control flow of the three kinds of thread, with the data abstracted
    away: every branch that depends on data or on the environment is a
    possible step.  A [threading.Lock] is free or owned by the thread that
    acquired it; a thread that dies by an uncaught exception keeps what it
    owns. *)

Module Locks.

Inductive lock : Type :=
| q_drain_lock
| player_lock.

#[global] Instance lock_eq_dec : EqDecision lock.
Proof. solve_decision. Defined.

Inductive pc : Type :=
(* the main thread: the tick loop *)
| TickClock       (* clock.tick(...); next: q_drain_lock.acquire() *)
| TickDrain       (* inside the drain loop, between acquire and release *)
| TickDrained     (* q_drain_lock released; next: player_lock.acquire() *)
| TickSend        (* collecting and sending, between acquire and release *)
(* threaded_server_acceptor *)
| AccAccept       (* s.accept(); conn.send(...) *)
| AccLock         (* next: player_lock.acquire() *)
| AccInsert       (* id_to_player[player_id] = ServerPlayer(...) *)
| AccSpawn        (* player_lock released; next: Thread(...).start() *)
(* client_state_producer *)
| ProdRecv        (* conn.recv, decode, split *)
| ProdFor         (* in the for loop; next: q_drain_lock.acquire() *)
| ProdPut         (* state_queue.put(str_to_player_data(...)) *)
| ProdClose       (* the loop was left; next: conn.close() *)
(* any thread that returned or died *)
| Dead.

(** Steps that touch no lock. *)
Inductive local : pc -> pc -> Prop :=
| tick_drain_message : local TickDrain TickDrain
| tick_drain_raises : local TickDrain Dead
| tick_send_one : local TickSend TickSend
| tick_send_raises : local TickSend Dead
| acc_accepted : local AccAccept AccLock
| acc_accept_raises : local AccAccept Dead
| acc_insert_raises : local AccInsert Dead
| acc_spawn_raises : local AccSpawn Dead
| prod_received : local ProdRecv ProdFor
| prod_disconnected : local ProdRecv ProdClose
| prod_for_done : local ProdFor ProdRecv
| prod_put_raises : local ProdPut ProdClose
| prod_closed : local ProdClose Dead.

(** [l.acquire()]: from where, and where it leads. *)
Inductive acquires : pc -> lock -> pc -> Prop :=
| tick_acquires_q : acquires TickClock q_drain_lock TickDrain
| tick_acquires_p : acquires TickDrained player_lock TickSend
| acc_acquires_p : acquires AccLock player_lock AccInsert
| prod_acquires_q : acquires ProdFor q_drain_lock ProdPut.

(** [l.release()]. *)
Inductive releases : pc -> lock -> pc -> Prop :=
| tick_releases_q : releases TickDrain q_drain_lock TickDrained
| tick_releases_p : releases TickSend player_lock TickClock
| acc_releases_p : releases AccInsert player_lock AccSpawn
| prod_releases_q : releases ProdPut q_drain_lock ProdFor.

Record Sys : Type := mkSys {
  threads : gmap nat pc;
  q_owner : option nat;
  p_owner : option nat
}.

Definition owner (l : lock) (s : Sys) : option nat :=
  match l with
  | q_drain_lock => q_owner s
  | player_lock => p_owner s
  end.

Definition set_pc (t : nat) (c : pc) (s : Sys) : Sys :=
  mkSys (<[t := c]> (threads s)) (q_owner s) (p_owner s).

Definition set_owner (l : lock) (o : option nat) (s : Sys) : Sys :=
  match l with
  | q_drain_lock => mkSys (threads s) o (p_owner s)
  | player_lock => mkSys (threads s) (q_owner s) o
  end.

(** One step of one thread. *)
Inductive step : Sys -> Sys -> Prop :=
| step_local t c c' s :
    threads s !! t = Some c -> local c c' ->
    step s (set_pc t c' s)
| step_acquire t c l c' s :
    threads s !! t = Some c -> acquires c l c' -> owner l s = None ->
    step s (set_owner l (Some t) (set_pc t c' s))
| step_release t c l c' s :
    threads s !! t = Some c -> releases c l c' ->
    step s (set_owner l None (set_pc t c' s))
| step_spawn t t' s :
    threads s !! t = Some AccSpawn -> threads s !! t' = None ->
    step s (set_pc t' ProdRecv (set_pc t AccAccept s)).

(** The main thread (0) has started the acceptor (1) and enters its loop. *)
Definition initial : Sys :=
  mkSys (<[1%nat := AccAccept]> (<[0%nat := TickClock]> ∅)) None None.

Inductive reachable : Sys -> Prop :=
| reachable_initial : reachable initial
| reachable_step s s' : reachable s -> step s s' -> reachable s'.

Definition holds (t : nat) (l : lock) (s : Sys) : Prop := owner l s = Some t.

(** Where a thread that owns the lock can be. *)
Definition may_own (l : lock) (c : pc) : bool :=
  match l, c with
  | q_drain_lock, (TickDrain | ProdPut | ProdClose | Dead) => true
  | player_lock, (TickSend | AccInsert | Dead) => true
  | _, _ => false
  end.

(** Every owner is a thread at a place where it can own the lock. *)
Definition owners_in_place (s : Sys) : Prop :=
  forall (l : lock) (t : nat),
    owner l s = Some t ->
    exists c : pc, threads s !! t = Some c /\ may_own l c = true.

(** The places between an [acquire] of the lock and its [release]. *)
Definition in_critical_section (l : lock) (c : pc) : bool :=
  match l, c with
  | q_drain_lock, (TickDrain | ProdPut) => true
  | player_lock, (TickSend | AccInsert) => true
  | _, _ => false
  end.

(** Whoever is inside a critical section owns its lock. *)
Definition critical_owns (s : Sys) : Prop :=
  forall (l : lock) (t : nat) (c : pc),
    threads s !! t = Some c -> in_critical_section l c = true ->
    owner l s = Some t.

(** The lock is owned by a thread that has left the critical section
    without releasing it. *)
Definition abandoned (l : lock) (t : nat) (s : Sys) : Prop :=
  owner l s = Some t /\
  exists c : pc,
    threads s !! t = Some c /\ may_own l c = true /\
    in_critical_section l c = false.

(** Any number of steps. *)
Inductive steps : Sys -> Sys -> Prop :=
| steps_refl s : steps s s
| steps_step s s' s'' : steps s s' -> step s' s'' -> steps s s''.

(** The main thread died in the drain loop. *)
Definition drain_crashed : Sys :=
  set_pc 0%nat Dead
    (set_owner q_drain_lock (Some 0%nat) (set_pc 0%nat TickDrain initial)).

(** The main thread has taken [q_drain_lock]. *)
Definition draining : Sys :=
  set_owner q_drain_lock (Some 0%nat) (set_pc 0%nat TickDrain initial).

End Locks.

(** ** client.py: the receiving side of the framing *)

Module Framing.

Definition bytes := list Byte.byte.

(** [int.from_bytes(b, "little")]. *)
Fixpoint from_bytes_little (b : bytes) : N :=
  match b with
  | [] => 0%N
  | x :: rest => (Byte.to_N x + 256 * from_bytes_little rest)%N
  end.

(** The byte of value [n mod 256]. *)
Definition low_byte (n : N) : Byte.byte :=
  match Byte.of_N (n mod 256) with
  | Some b => b
  | None => Byte.x00
  end.

(** [n.to_bytes(k, "little")], for [n < 256^k]. *)
Fixpoint to_bytes_little (k : nat) (n : N) : bytes :=
  match k with
  | O => []
  | S k' => low_byte n :: to_bytes_little k' (n / 256)
  end.

(** A frame as the receiver expects it: a 4-byte little-endian length, then
    the payload. *)
Definition frame (payload : bytes) : bytes :=
  to_bytes_little 4 (N.of_nat (length payload)) ++ payload.

(** Modelled from the spec: [helpers.recv_exactly(socket, n)], which is not
    among the sources.  It returns exactly [n] bytes of the stream however
    the stream chunks them.  The socket is the list of the chunks in which
    its bytes arrive; a [recv] of at most [n] bytes takes them from the first
    chunk; an empty chunk is the end of the stream, and so is the end of the
    list. *)
Fixpoint recv_exactly (chunks : list bytes) (n : nat) : option (bytes * list bytes) :=
  match n with
  | O => Some ([], chunks)
  | S _ =>
      match chunks with
      | [] => None
      | [] :: _ => None
      | chunk :: rest =>
          if (length chunk <=? n)%nat then
            match recv_exactly rest (n - length chunk) with
            | Some (more, rest') => Some (chunk ++ more, rest')
            | None => None
            end
          else Some (take n chunk, drop n chunk :: rest)
      end
  end.

(** One pass through the loop of [game_state_watcher]: the bytes handed to
    [pickle.loads], and what is left of the stream. *)
Definition receive_message (chunks : list bytes) : option (bytes * list bytes) :=
  match recv_exactly chunks 4 with
  | Some (size_bytes, chunks') =>
      let size := from_bytes_little size_bytes in
      recv_exactly chunks' (N.to_nat size)
  | None => None
  end.

(** [game_state_watcher]: the payloads of the first [passes] passes through
    its loop, in order; the thread stops at a stream that ends. *)
Fixpoint game_state_watcher (passes : nat) (chunks : list bytes)
    : list bytes * list bytes :=
  match passes with
  | O => ([], chunks)
  | S passes' =>
      match receive_message chunks with
      | Some (message, chunks') =>
          let '(messages, rest) := game_state_watcher passes' chunks' in
          (message :: messages, rest)
      | None => ([], chunks)
      end
  end.

(** What one client finds on its socket: the payloads of the [sendall]
    calls made on it, one after the other. *)
Definition wire (c : Server.conn) (log : list (Server.conn * bytes)) : bytes :=
  concat (map snd (filter (fun entry => fst entry = c) log)).

Section Claim.

Variable ServerPlayer Sendable : Type.
Variable socket : ServerPlayer -> Server.conn.
Variable update_position : Q -> Q -> Q -> ServerPlayer -> ServerPlayer.
Variable update_aim : Q -> ServerPlayer -> ServerPlayer.
Variable get_sendable_state : ServerPlayer -> Sendable.
Variable pickle_dumps : list Sendable -> bytes.

(** "Server-to-client framing round-trips", for what a pass of the tick loop
    sends: every message is the 4-byte little-endian length of the pickled
    snapshot followed by the snapshot, and the receive loop gives the
    snapshot back however the message is chunked. *)
Definition framing_round_trips : Prop :=
  forall (send_raises : Server.conn -> bool)
         (st : Server.State ServerPlayer Sendable)
         (c : Server.conn) (message : bytes) (chunks : list bytes),
    Server.delivered st = [] ->
    In (c, message)
       (Server.delivered
          (fst (Server.tick ServerPlayer Sendable socket update_position update_aim
                  get_sendable_state pickle_dumps send_raises st))) ->
    Forall (fun chunk => chunk <> []) chunks ->
    concat chunks = message ->
    let payload :=
      pickle_dumps (Server.tick_snapshot ServerPlayer Sendable update_position
                      update_aim get_sendable_state st) in
    message = frame payload /\
    fst (game_state_watcher 1 chunks) = [payload].

End Claim.

End Framing.

(** ** Concrete scenes, used to run the definitions *)

Module Examples.

Definition firer : Beam.Player := Beam.mkPlayer 10 100 vzero None 0.
Definition corpse : Beam.Player := Beam.mkPlayer 11 0 vzero (Some 5) 0.
Definition target : Beam.Player := Beam.mkPlayer 12 100 vzero None 0.

(** Three players: the firer at 0, a dead one at 1, a live one at 2. *)
Definition arena : Beam.Simulation :=
  Beam.mkSimulation
    (<[2%nat := target]> (<[1%nat := corpse]> (<[0%nat := firer]> ∅)))
    ({[ 10 ]} ∪ {[ 11 ]} ∪ {[ 12 ]}).

(** A beam of the player at 0 along the x axis: damage 30, force 2. *)
Definition railgun_beam : Beam.HitscanBeam :=
  Beam.mkHitscanBeam 1 0%nat 0%Q 1%Q (mkVec 1%Q 0%Q) vzero (mkVec 1%Q 0%Q)
    30 2%Q 0%Q (1, 0).

(** Stand-ins for the helpers of the [weapons] package and for [math.tau]. *)
Definition unit_vector (v : Vec) : Vec := v.
Definition get_slope (a b : Vec) : result Q := Ok 0%Q.
Definition get_sign (q : Q) : Z := Z.sgn (Qnum q).
Definition polar_to_cartesian (r angle : Q) : Q * Q := (r, 0%Q).
Definition tau : Q := (6283185307 # 1000000000)%Q.

(** A 2 Hz weapon, as [Weapon.__init__] leaves it. *)
Definition two_hertz : Weapons.Weapon :=
  Weapons.mkWeapon 2%Q (1 # 2)%Q (1 # 2)%Q.

(** A stand-in [ServerPlayer]: position, aim and connection. *)
Record Avatar : Type := mkAvatar {
  pos_x : Q;
  pos_y : Q;
  aim : Q;
  avatar_conn : Server.conn
}.

Definition new_player (pid : Z) (c : Server.conn) : Avatar := mkAvatar 0%Q 0%Q 0%Q c.
Definition update_position (dx dy dt : Q) (a : Avatar) : Avatar :=
  mkAvatar (pos_x a + dx * dt)%Q (pos_y a + dy * dt)%Q (aim a) (avatar_conn a).
Definition update_aim (dm : Q) (a : Avatar) : Avatar :=
  mkAvatar (pos_x a) (pos_y a) (aim a + dm)%Q (avatar_conn a).
Definition get_sendable_state (a : Avatar) : Q * Q * Q := (pos_x a, pos_y a, aim a).
Definition str_to_player_data (s : string) : result Server.PlayerData :=
  match s with
  | EmptyString => Raise ValueError
  | String _ _ => Ok (Server.mkPlayerData 0 1%Q 0%Q 0%Q 1%Q)
  end.
Definition decode_utf8 (b : Server.bytes) : result string :=
  Ok (string_of_list_byte b).
Definition pickle_dumps (l : list (Q * Q * Q)) : Server.bytes :=
  [Byte.x80; Byte.x04] ++ repeat Byte.x4b (length l) ++ [Byte.x2e].

Definition two_players : Server.dict Avatar :=
  [(0, new_player 0 7%nat); (1, new_player 1 8%nat)].

(** Two connected players, nothing queued, nothing sent yet. *)
Definition lobby : Server.State Avatar (Q * Q * Q) :=
  Server.mkState [] two_players [] [] [].

(** The same with one input of player 1 queued. *)
Definition lobby_with_input : Server.State Avatar (Q * Q * Q) :=
  Server.mkState [Server.mkPlayerData 1 3%Q 4%Q (1 # 2)%Q 1%Q] two_players [] [] [].

(** The connection of player 0 is broken; the other one is fine. *)
Definition first_is_broken (c : Server.conn) : bool := Nat.eqb c 7%nat.

(** A payload built with a negative shard count. *)
Definition no_shards : Weapons.RadialExplosives :=
  Weapons.mkRadialExplosives 100%Q 750%Q (-1).

(** The id as one decimal digit (ids below ten). *)
Definition encode_id (n : Z) : Server.bytes :=
  match Byte.of_N (Z.to_N (48 + n)) with
  | Some b => [b]
  | None => []
  end.

(** The server before anyone has connected. *)
Definition empty_server : Server.State Avatar (Q * Q * Q) :=
  Server.mkState [] [] [] [] [].

End Examples.

(** * Properties *)

(** ** HitscanBeam.step *)

Section BeamStep.

Import Beam.

Lemma alter_set_lookup (f : Player -> Player) (l : loc) (h : gmap loc Player) (p : Player) :
  h !! l = Some p -> alter f l h !! l = Some (f p).
Proof. intros Hl. rewrite lookup_alter_eq, Hl. reflexivity. Qed.

Lemma step_unfold_hit (b : HitscanBeam) (pt : Vec) (l : loc) (ticks : Z)
    (sim : Simulation) (hp : Player) :
  heap sim !! l = Some hp ->
  uuid hp ∈ players sim ->
  heap (step b (Some pt) (Some (EObject l)) ticks sim) =
    let new_health := health hp - damage b in
    let h1 := alter (set_health new_health) l (heap sim) in
    if new_health <=? 0 then
      alter (fun p => set_num_frags (num_frags p + 1) p) (player b)
        (match time_of_death hp with
         | None => alter (set_time_of_death (Some ticks)) l
                     (alter (set_velocity vzero) l h1)
         | Some _ => alter (set_velocity vzero) l h1
         end)
    else
      alter (fun p => set_velocity
                        (vadd (velocity p)
                              (vscale (direction_vector b) (collision_force b))) p)
            l h1.
Proof.
  intros Hl Hin. unfold step. rewrite Hl.
  destruct (decide (uuid hp ∈ players sim)) as [_ | Hn]; [| contradiction].
  cbv zeta. destruct (health hp - damage b <=? 0); reflexivity.
Qed.

(** C3.  A beam that hits a player takes exactly its damage off the player's
    health.  If the player survives (health still positive), the velocity
    grows by [direction_vector * collision_force] and nothing is recorded; if
    not, the velocity becomes zero and the time of death is recorded unless
    one already is. *)
Theorem step_damage_and_knockback (b : HitscanBeam) (pt : Vec) (l : loc)
    (ticks : Z) (sim : Simulation) (hp : Player) :
  heap sim !! l = Some hp ->
  uuid hp ∈ players sim ->
  exists hp' : Player,
    heap (step b (Some pt) (Some (EObject l)) ticks sim) !! l = Some hp' /\
    health hp' = health hp - damage b /\
    (0 < health hp' ->
       velocity hp' = vadd (velocity hp)
                           (vscale (direction_vector b) (collision_force b)) /\
       time_of_death hp' = time_of_death hp) /\
    (health hp' <= 0 ->
       velocity hp' = vzero /\
       time_of_death hp' = match time_of_death hp with
                           | None => Some ticks
                           | Some t => Some t
                           end).
Proof.
  intros Hl Hin. rewrite (step_unfold_hit b pt l ticks sim hp Hl Hin). cbv zeta.
  destruct (health hp - damage b <=? 0) eqn:Hle.
  - apply Z.leb_le in Hle.
    set (h3 := match time_of_death hp with
               | None => _ | Some _ => _ end).
    assert (Hh3 : exists q, h3 !! l = Some q /\ health q = health hp - damage b /\
                    velocity q = vzero /\
                    time_of_death q = match time_of_death hp with
                                      | None => Some ticks | Some t => Some t end).
    { subst h3. destruct (time_of_death hp) as [t |] eqn:Ht.
      - eexists. split.
        + erewrite alter_set_lookup; [reflexivity |].
          erewrite alter_set_lookup; [reflexivity | exact Hl].
        + simpl. auto.
      - eexists. split.
        + erewrite alter_set_lookup; [reflexivity |].
          erewrite alter_set_lookup; [reflexivity |].
          erewrite alter_set_lookup; [reflexivity | exact Hl].
        + simpl. auto. }
    destruct Hh3 as (q & Hq & Hhealth & Hvel & Htod).
    destruct (decide (player b = l)) as [-> | Hne].
    + eexists. split; [erewrite alter_set_lookup; [reflexivity | exact Hq] |].
      simpl. repeat split; auto; lia.
    + exists q. split; [rewrite lookup_alter_ne by exact Hne; exact Hq |].
      repeat split; auto; lia.
  - apply Z.leb_gt in Hle.
    eexists. split.
    + erewrite alter_set_lookup; [reflexivity |].
      erewrite alter_set_lookup; [reflexivity | exact Hl].
    + simpl. repeat split; auto; lia.
Qed.

(** C1 (what the code does).  A beam of non-negative damage that hits a
    player whose health is already at most zero and whose time of death is
    already recorded still adds one to the firer's [num_frags]. *)
Theorem step_dead_player_credits_frag_again (b : HitscanBeam) (pt : Vec)
    (l : loc) (ticks t : Z) (sim : Simulation) (hp firer : Player) :
  heap sim !! l = Some hp ->
  uuid hp ∈ players sim ->
  health hp <= 0 ->
  time_of_death hp = Some t ->
  0 <= damage b ->
  heap sim !! player b = Some firer ->
  exists firer' : Player,
    heap (step b (Some pt) (Some (EObject l)) ticks sim) !! player b = Some firer' /\
    num_frags firer' = num_frags firer + 1.
Proof.
  intros Hl Hin Hdead Htod Hdmg Hf.
  rewrite (step_unfold_hit b pt l ticks sim hp Hl Hin). cbv zeta.
  assert (Hle : (health hp - damage b <=? 0) = true) by (apply Z.leb_le; lia).
  rewrite Hle, Htod.
  destruct (decide (player b = l)) as [He | Hne].
  - rewrite He in *. assert (firer = hp) by congruence. subst firer.
    eexists. split.
    + erewrite alter_set_lookup; [reflexivity |].
      erewrite alter_set_lookup; [reflexivity |].
      erewrite alter_set_lookup; [reflexivity | exact Hl].
    + reflexivity.
  - eexists. split.
    + erewrite alter_set_lookup; [reflexivity |].
      rewrite !lookup_alter_ne by congruence. exact Hf.
    + reflexivity.
Qed.

End BeamStep.

(** A live player hit by the example beam: health 100 becomes 70. *)
Lemma step_damage_and_knockback_witness :
  exists hp' : Beam.Player,
    Beam.heap (Beam.step Examples.railgun_beam (Some vzero) (Some (Beam.EObject 2%nat))
                 7 Examples.arena) !! 2%nat = Some hp' /\
    Beam.health hp' = 100 - 30 /\
    (0 < Beam.health hp' ->
       Beam.velocity hp' = vadd vzero (vscale (mkVec 1%Q 0%Q) 2%Q) /\
       Beam.time_of_death hp' = None) /\
    (Beam.health hp' <= 0 ->
       Beam.velocity hp' = vzero /\ Beam.time_of_death hp' = Some 7).
Proof.
  apply (step_damage_and_knockback Examples.railgun_beam vzero 2%nat 7
           Examples.arena Examples.target).
  - reflexivity.
  - apply (bool_decide_unpack (12 ∈ Beam.players Examples.arena)).
    vm_compute. exact I.
Defined.

(** The dead player hit again: the firer's count goes from 0 to 1. *)
Lemma step_dead_player_credits_frag_again_witness :
  exists firer' : Beam.Player,
    Beam.heap (Beam.step Examples.railgun_beam (Some vzero) (Some (Beam.EObject 1%nat))
                 7 Examples.arena) !! 0%nat = Some firer' /\
    Beam.num_frags firer' = 0 + 1.
Proof.
  apply (step_dead_player_credits_frag_again Examples.railgun_beam vzero 1%nat 7 5
           Examples.arena Examples.corpse Examples.firer).
  - reflexivity.
  - apply (bool_decide_unpack (11 ∈ Beam.players Examples.arena)).
    vm_compute. exact I.
  - simpl. lia.
  - reflexivity.
  - simpl. lia.
  - reflexivity.
Defined.

(** ** HitscanBeam.__init__ *)

Lemma zero_length_same_point (p : Vec) :
  q_is_zero (length_squared (vsub p p)) = true.
Proof.
  destruct p as [[xn xd] [yn yd]].
  unfold q_is_zero, length_squared, vsub. simpl.
  apply Z.eqb_eq. ring.
Qed.

Lemma q_is_zero_false (q : Q) : q_is_zero q = false -> ~ (q == 0)%Q.
Proof.
  unfold q_is_zero, Qeq. simpl. intros H Hq.
  apply Z.eqb_neq in H. apply H. lia.
Qed.

Lemma normalize_ok (unit_vector : Vec -> Vec) (v d : Vec) :
  normalize unit_vector v = Ok d ->
  q_is_zero (length_squared v) = false /\ d = unit_vector v.
Proof.
  unfold normalize. destruct (q_is_zero (length_squared v)); [discriminate |].
  intros H. injection H as <-. split; reflexivity.
Qed.

(** C10.  Both [HitscanBeam] constructors raise [ValueError] when the start
    point is the end point; and a beam they do construct has distinct end
    points, a difference of non-zero length, and for direction the
    normalisation of that difference. *)
Theorem hitscan_beam_init_needs_distinct_points
    (unit_vector : Vec -> Vec) (get_slope : Vec -> Vec -> result Q)
    (get_sign : Q -> Z) (new_uuid : Z) (owner : Beam.loc)
    (start_pt end_pt : Vec) (force : Q) (dmg : Z) (wdmg : Q) :
  Beam.init unit_vector get_slope get_sign new_uuid owner start_pt start_pt force dmg
    = Raise ValueError /\
  Weapons.HitscanBeam_init unit_vector get_slope get_sign start_pt start_pt force wdmg
    = Raise ValueError /\
  match Beam.init unit_vector get_slope get_sign new_uuid owner start_pt end_pt force dmg with
  | Ok b =>
      start_pt <> end_pt /\
      ~ (length_squared (vsub end_pt start_pt) == 0)%Q /\
      Beam.direction_vector b = unit_vector (vsub end_pt start_pt)
  | Raise _ => True
  end /\
  match Weapons.HitscanBeam_init unit_vector get_slope get_sign start_pt end_pt force wdmg with
  | Ok b =>
      start_pt <> end_pt /\
      ~ (length_squared (vsub end_pt start_pt) == 0)%Q /\
      Weapons.direction_vector b = unit_vector (vsub end_pt start_pt)
  | Raise _ => True
  end.
Proof.
  split; [| split; [| split]].
  - unfold Beam.init, normalize. rewrite zero_length_same_point. reflexivity.
  - unfold Weapons.HitscanBeam_init, normalize.
    rewrite zero_length_same_point. reflexivity.
  - unfold Beam.init.
    destruct (normalize unit_vector (vsub end_pt start_pt)) as [d | e] eqn:Hn;
      [| exact I].
    apply normalize_ok in Hn. destruct Hn as [Hz ->]. simpl.
    destruct (get_slope start_pt end_pt) as [sl | e]; [| exact I]. simpl.
    split; [| split].
    + intros ->. rewrite zero_length_same_point in Hz. discriminate.
    + apply q_is_zero_false. exact Hz.
    + reflexivity.
  - unfold Weapons.HitscanBeam_init.
    destruct (normalize unit_vector (vsub end_pt start_pt)) as [d | e] eqn:Hn;
      [| exact I].
    apply normalize_ok in Hn. destruct Hn as [Hz ->]. simpl.
    destruct (get_slope start_pt end_pt) as [sl | e]; [| exact I]. simpl.
    split; [| split].
    + intros ->. rewrite zero_length_same_point in Hz. discriminate.
    + apply q_is_zero_false. exact Hz.
    + reflexivity.
Qed.

(** ** RadialExplosives.activate *)

Section Activate.

Variable unit_vector : Vec -> Vec.
Variable get_slope : Vec -> Vec -> result Q.
Variable get_sign : Q -> Z.
Variable polar_to_cartesian : Q -> Q -> Q * Q.
Variable tau : Q.

Local Abbreviation activate :=
  (Weapons.activate unit_vector get_slope get_sign polar_to_cartesian tau).
Local Abbreviation activate_loop :=
  (Weapons.activate_loop unit_vector get_slope get_sign polar_to_cartesian).

(** The call with two arguments fails whatever they are. *)
Lemma HitscanBeam_call_two_arguments (a b : Weapons.pyval) :
  Weapons.HitscanBeam_call unit_vector get_slope get_sign [a; b] = Raise TypeError.
Proof. destruct a, b; reflexivity. Qed.

Lemma activate_loop_first_shard (r : Weapons.RadialExplosives) (pos : Vec)
    (angle_fraction : Q) (i : Z) (rest : list Z) (acc : list Weapons.HitscanBeam) :
  activate_loop r pos angle_fraction (i :: rest) acc = Raise TypeError.
Proof.
  cbn [Weapons.activate_loop]. destruct (polar_to_cartesian _ _) as [x y].
  rewrite HitscanBeam_call_two_arguments. reflexivity.
Qed.

Lemma activate_no_shards (r : Weapons.RadialExplosives) (pos : Vec) :
  Weapons.num_shards r = 0 -> activate r pos = Raise ZeroDivisionError.
Proof. intros H. unfold Weapons.activate. rewrite H. reflexivity. Qed.

Lemma activate_negative_shards (r : Weapons.RadialExplosives) (pos : Vec) :
  Weapons.num_shards r < 0 -> activate r pos = Ok [].
Proof.
  intros Hn. unfold Weapons.activate.
  destruct (Weapons.num_shards r =? 0) eqn:Hz; [apply Z.eqb_eq in Hz; lia |].
  rewrite seqZ_nil by lia. reflexivity.
Qed.

(** C2 (what the code does).  With one shard or more, [activate] returns no
    list: the first [HitscanBeam(pos, shard_vec)] lacks [collision_force] and
    [damage] and raises [TypeError]. *)
Theorem activate_raises_type_error (r : Weapons.RadialExplosives) (pos : Vec) :
  1 <= Weapons.num_shards r ->
  activate r pos = Raise TypeError.
Proof.
  intros Hn. unfold Weapons.activate.
  destruct (Weapons.num_shards r =? 0) eqn:Hz; [apply Z.eqb_eq in Hz; lia |].
  rewrite seqZ_cons by lia. apply activate_loop_first_shard.
Qed.

End Activate.

(** The default payload, 32 shards, set off at the origin. *)
Lemma activate_raises_type_error_witness :
  Weapons.activate Examples.unit_vector Examples.get_slope Examples.get_sign
    Examples.polar_to_cartesian Examples.tau Weapons.RadialExplosives_default vzero
  = Raise TypeError.
Proof.
  apply (activate_raises_type_error Examples.unit_vector Examples.get_slope
           Examples.get_sign Examples.polar_to_cartesian Examples.tau
           Weapons.RadialExplosives_default vzero).
  simpl. lia.
Defined.

(** ** The cooldown of a weapon *)

Section CooldownFacts.

Variable Shot : Type.
Variable emit : Vec -> Q -> Shot.

(** A weapon as its constructor leaves it can shoot at once. *)
Lemma Weapon_init_ready (float_div : Q -> Q -> Q) (rate : Q) (w : Weapons.Weapon) :
  Weapons.Weapon_init float_div rate = Ok w ->
  (Weapons.seconds_per_shot w <= Weapons.time_since_last_shot w)%Q.
Proof.
  unfold Weapons.Weapon_init. destruct (q_is_zero rate); [discriminate |].
  intros H. injection H as <-. simpl. apply Qle_refl.
Qed.

(** C4.  A weapon that is ready fires once; a second call less than
    [seconds_per_shot] of simulated time later returns nothing and leaves
    the weapon as it was: one shot in all. *)
Theorem fire_twice_within_cooldown (w : Weapons.Weapon)
    (pos1 pos2 : Vec) (aim1 aim2 dt : Q) :
  (Weapons.seconds_per_shot w <= Weapons.time_since_last_shot w)%Q ->
  (dt < Weapons.seconds_per_shot w)%Q ->
  let first := Weapons.fire Shot emit w pos1 aim1 in
  let waiting := Weapons.elapse dt (fst first) in
  let second := Weapons.fire Shot emit waiting pos2 aim2 in
  snd first = [emit pos1 aim1] /\
  snd second = [] /\
  fst second = waiting /\
  length (snd first ++ snd second) = 1%nat.
Proof.
  intros Hready Hdt. cbv zeta.
  assert (Hfirst : Weapons.fire Shot emit w pos1 aim1 =
                   (Weapons.mkWeapon (Weapons.fire_rate_hz w)
                      (Weapons.seconds_per_shot w) 0%Q, [emit pos1 aim1])).
  { unfold Weapons.fire. apply Qle_bool_iff in Hready. rewrite Hready.
    reflexivity. }
  rewrite Hfirst. simpl. unfold Weapons.fire. simpl.
  destruct (Qle_bool (Weapons.seconds_per_shot w) (0 + dt)) eqn:Hgate.
  - apply Qle_bool_iff in Hgate. rewrite Qplus_0_l in Hgate.
    exfalso. exact (Qle_not_lt _ _ Hgate Hdt).
  - simpl. repeat split; reflexivity.
Qed.

End CooldownFacts.

(** A 2 Hz weapon fired at time 0 and again a quarter of a second later. *)
Lemma fire_twice_within_cooldown_witness :
  let first := Weapons.fire Vec (fun pos _ => pos) Examples.two_hertz vzero 0%Q in
  let waiting := Weapons.elapse (1 # 4)%Q (fst first) in
  let second := Weapons.fire Vec (fun pos _ => pos) waiting vzero 0%Q in
  snd first = [vzero] /\
  snd second = [] /\
  fst second = waiting /\
  length (snd first ++ snd second) = 1%nat.
Proof.
  apply (fire_twice_within_cooldown Vec (fun pos _ => pos) Examples.two_hertz
           vzero vzero 0%Q 0%Q (1 # 4)%Q).
  - vm_compute. discriminate.
  - reflexivity.
Defined.

(** ** The two locks *)

Section LockFacts.

Import Locks.

Lemma local_keeps_place (l : lock) (c c' : pc) :
  local c c' -> may_own l c = true -> may_own l c' = true.
Proof. intros Hstep; destruct Hstep, l; simpl; congruence. Qed.

Lemma acquires_from_nothing (l l' : lock) (c c' : pc) :
  acquires c l c' -> may_own l' c = false.
Proof. intros Hstep; destruct Hstep, l'; reflexivity. Qed.

Lemma acquires_into_place (l : lock) (c c' : pc) :
  acquires c l c' -> may_own l c' = true.
Proof. intros Hstep; destruct Hstep; reflexivity. Qed.

Lemma releases_only_own (l l' : lock) (c c' : pc) :
  releases c l c' -> l' <> l -> may_own l' c = false.
Proof. intros Hstep; destruct Hstep, l'; simpl; congruence. Qed.

Lemma spawning_owns_nothing (l : lock) : may_own l AccSpawn = false.
Proof. destruct l; reflexivity. Qed.

Lemma owner_set_pc (l : lock) (t : nat) (c : pc) (s : Sys) :
  owner l (set_pc t c s) = owner l s.
Proof. destruct l; reflexivity. Qed.

Lemma owner_set_owner (l l' : lock) (o : option nat) (s : Sys) :
  owner l' (set_owner l o s) = if decide (l' = l) then o else owner l' s.
Proof. destruct l, l'; simpl; reflexivity. Qed.

Lemma threads_set_owner (l : lock) (o : option nat) (s : Sys) :
  threads (set_owner l o s) = threads s.
Proof. destruct l; reflexivity. Qed.

Lemma threads_set_pc (t t0 : nat) (c : pc) (s : Sys) :
  threads (set_pc t c s) !! t0 = if decide (t = t0) then Some c else threads s !! t0.
Proof. unfold set_pc. simpl. apply lookup_insert. Qed.

Lemma owners_in_place_initial : owners_in_place initial.
Proof. intros l t H. destruct l; discriminate. Qed.

Lemma owners_in_place_step (s s' : Sys) :
  owners_in_place s -> step s s' -> owners_in_place s'.
Proof.
  intros Hinv Hstep l0 t0 Hown.
  destruct Hstep as [t c c' s Ht Hloc | t c l c' s Ht Hacq Hfree
                    | t c l c' s Ht Hrel | t t' s Ht Hfresh].
  - rewrite owner_set_pc in Hown. rewrite threads_set_pc.
    destruct (Hinv l0 t0 Hown) as (c0 & Hc0 & Hplace).
    destruct (decide (t = t0)) as [-> | Hne]; [| eauto].
    exists c'. split; [reflexivity |].
    apply (local_keeps_place l0 c c' Hloc). congruence.
  - rewrite owner_set_owner, owner_set_pc in Hown.
    rewrite threads_set_owner, threads_set_pc.
    destruct (decide (l0 = l)) as [-> | Hl].
    + injection Hown as <-. destruct (decide (t = t)) as [_ | Hn]; [| congruence].
      exists c'. split; [reflexivity | exact (acquires_into_place l c c' Hacq)].
    + destruct (Hinv l0 t0 Hown) as (c0 & Hc0 & Hplace).
      destruct (decide (t = t0)) as [-> | Hne]; [| eauto].
      assert (c0 = c) by congruence. subst c0.
      rewrite (acquires_from_nothing l l0 c c' Hacq) in Hplace. discriminate.
  - rewrite owner_set_owner, owner_set_pc in Hown.
    rewrite threads_set_owner, threads_set_pc.
    destruct (decide (l0 = l)) as [-> | Hl]; [discriminate |].
    destruct (Hinv l0 t0 Hown) as (c0 & Hc0 & Hplace).
    destruct (decide (t = t0)) as [-> | Hne]; [| eauto].
    assert (c0 = c) by congruence. subst c0.
    rewrite (releases_only_own l l0 c c' Hrel Hl) in Hplace. discriminate.
  - rewrite !owner_set_pc in Hown. rewrite !threads_set_pc.
    destruct (Hinv l0 t0 Hown) as (c0 & Hc0 & Hplace).
    destruct (decide (t' = t0)) as [-> | Hne']; [congruence |].
    destruct (decide (t = t0)) as [-> | Hne]; [| eauto].
    assert (c0 = AccSpawn) by congruence. subst c0.
    rewrite spawning_owns_nothing in Hplace. discriminate.
Qed.

(** A thread owns a lock only after its own [acquire] of it, and every
    [acquire] in the three thread bodies starts from a place where the thread
    owns nothing; so no step makes a thread the owner of both. *)
Lemma never_both_step (s s' : Sys) (t0 : nat) :
  owners_in_place s ->
  ~ (holds t0 q_drain_lock s /\ holds t0 player_lock s) ->
  step s s' ->
  ~ (holds t0 q_drain_lock s' /\ holds t0 player_lock s').
Proof.
  unfold holds. intros Hinv Hnot Hstep [Hq Hp].
  destruct Hstep as [t c c' s Ht Hloc | t c l c' s Ht Hacq Hfree
                    | t c l c' s Ht Hrel | t t' s Ht Hfresh].
  - rewrite owner_set_pc in Hq, Hp. tauto.
  - rewrite owner_set_owner, owner_set_pc in Hq, Hp.
    destruct l.
    + destruct (decide (player_lock = q_drain_lock)) as [Hd | _]; [discriminate |].
      destruct (decide (q_drain_lock = q_drain_lock)) as [_ | Hd]; [| congruence].
      injection Hq as <-.
      destruct (Hinv player_lock t Hp) as (c0 & Hc0 & Hplace).
      assert (c0 = c) by congruence. subst c0.
      rewrite (acquires_from_nothing _ player_lock c c' Hacq) in Hplace.
      discriminate.
    + destruct (decide (q_drain_lock = player_lock)) as [Hd | _]; [discriminate |].
      destruct (decide (player_lock = player_lock)) as [_ | Hd]; [| congruence].
      injection Hp as <-.
      destruct (Hinv q_drain_lock t Hq) as (c0 & Hc0 & Hplace).
      assert (c0 = c) by congruence. subst c0.
      rewrite (acquires_from_nothing _ q_drain_lock c c' Hacq) in Hplace.
      discriminate.
  - rewrite owner_set_owner, owner_set_pc in Hq, Hp.
    destruct l.
    + destruct (decide (q_drain_lock = q_drain_lock)) as [_ | Hd];
        [discriminate | congruence].
    + destruct (decide (player_lock = player_lock)) as [_ | Hd];
        [discriminate | congruence].
  - rewrite !owner_set_pc in Hq, Hp. tauto.
Qed.

(** C7.  In every state that the acceptor, the producers and the tick thread
    can reach, in whatever order they take their steps, no thread holds
    [q_drain_lock] and [player_lock] at once. *)
Theorem locks_never_held_together (s : Sys) (t : nat) :
  reachable s ->
  ~ (holds t q_drain_lock s /\ holds t player_lock s).
Proof.
  intros Hreach.
  assert (H : owners_in_place s /\
              ~ (holds t q_drain_lock s /\ holds t player_lock s)).
  { induction Hreach as [| s s' Hreach [Hinv Hnot] Hstep].
    - split; [exact owners_in_place_initial |].
      unfold holds. simpl. intros [H _]. discriminate.
    - split.
      + exact (owners_in_place_step s s' Hinv Hstep).
      + exact (never_both_step s s' t Hinv Hnot Hstep). }
  exact (proj2 H).
Qed.

End LockFacts.

Lemma draining_reachable : Locks.reachable Locks.draining.
Proof.
  apply (Locks.reachable_step Locks.initial); [apply Locks.reachable_initial |].
  apply (Locks.step_acquire 0%nat Locks.TickClock Locks.q_drain_lock
           Locks.TickDrain Locks.initial).
  - reflexivity.
  - constructor.
  - reflexivity.
Defined.

(** While the main thread drains the queue it holds [q_drain_lock], and not
    [player_lock] with it. *)
Lemma locks_never_held_together_witness :
  Locks.holds 0%nat Locks.q_drain_lock Locks.draining /\
  ~ (Locks.holds 0%nat Locks.q_drain_lock Locks.draining /\
     Locks.holds 0%nat Locks.player_lock Locks.draining).
Proof.
  split; [reflexivity |].
  apply (locks_never_held_together Locks.draining 0%nat).
  exact draining_reachable.
Defined.

(** ** The server's tick *)

Section ServerFacts.

Import Server.

Context {ServerPlayer Sendable : Type}.
Variable socket : ServerPlayer -> conn.
Variable update_position : Q -> Q -> Q -> ServerPlayer -> ServerPlayer.
Variable update_aim : Q -> ServerPlayer -> ServerPlayer.
Variable get_sendable_state : ServerPlayer -> Sendable.
Variable str_to_player_data : string -> result PlayerData.
Variable decode_utf8 : bytes -> result string.
Variable pickle_dumps : list Sendable -> bytes.

Local Abbreviation apply_to_player := (Server.apply_to_player _ update_position update_aim).
Local Abbreviation apply_input := (Server.apply_input _ update_position update_aim).
Local Abbreviation drain := (Server.drain _ update_position update_aim).
Local Abbreviation net_effect := (Server.net_effect _ update_position update_aim).
Local Abbreviation after_inputs := (Server.after_inputs _ update_position update_aim).
Local Abbreviation collect := (Server.collect _ _ get_sendable_state).
Local Abbreviation send_loop := (Server.send_loop _ _ socket pickle_dumps).
Local Abbreviation tick :=
  (Server.tick _ _ socket update_position update_aim get_sendable_state pickle_dumps).
Local Abbreviation tick_snapshot :=
  (Server.tick_snapshot _ _ update_position update_aim get_sendable_state).
Local Abbreviation producer_iteration :=
  (Server.producer_iteration ServerPlayer Sendable str_to_player_data decode_utf8).
Local Abbreviation producer_loop :=
  (Server.producer_loop ServerPlayer Sendable str_to_player_data decode_utf8).
Local Abbreviation client_state_producer :=
  (Server.client_state_producer ServerPlayer Sendable str_to_player_data decode_utf8).

(** *** The drain loop *)

Lemma drain_fold (q : list PlayerData) (d : dict ServerPlayer) :
  drain q d = ([], fold_left apply_input q d).
Proof.
  revert d. induction q as [| m q IH]; intros d; simpl; [reflexivity | apply IH].
Qed.

Lemma dict_get_alter (f : ServerPlayer -> ServerPlayer) (k k' : Z) (d : dict ServerPlayer) :
  dict_get k (dict_alter f k' d) =
  (fun p => if k' =? k then f p else p) <$> dict_get k d.
Proof.
  induction d as [| [k0 v] d IH]; simpl; [reflexivity |].
  destruct (k0 =? k') eqn:E0; simpl.
  - apply Z.eqb_eq in E0. subst k0.
    destruct (k' =? k) eqn:E; simpl; [reflexivity |].
    destruct (dict_get k d); reflexivity.
  - destruct (k0 =? k) eqn:E1; simpl.
    + apply Z.eqb_eq in E1. subst k0. rewrite Z.eqb_sym, E0. reflexivity.
    + exact IH.
Qed.

Lemma dict_get_apply_input (k : Z) (m : PlayerData) (d : dict ServerPlayer) :
  dict_get k (apply_input d m) =
  (fun p => if player_id m =? k then apply_to_player m p else p) <$> dict_get k d.
Proof.
  unfold Server.apply_input.
  destruct (dict_get (player_id m) d) as [p0 |] eqn:Hm.
  - apply dict_get_alter.
  - destruct (player_id m =? k) eqn:E.
    + apply Z.eqb_eq in E. subst k. rewrite Hm. reflexivity.
    + destruct (dict_get k d); reflexivity.
Qed.

(** Whatever the queue, the player under [k] ends with the net effect of the
    inputs addressed to it. *)
Lemma dict_get_after_queue (k : Z) (q : list PlayerData) (d : dict ServerPlayer) :
  dict_get k (fold_left apply_input q d) = net_effect k q <$> dict_get k d.
Proof.
  revert d. induction q as [| m q IH]; intros d; simpl.
  - destruct (dict_get k d); reflexivity.
  - rewrite IH, dict_get_apply_input.
    destruct (dict_get k d); reflexivity.
Qed.

Lemma map_other_keys (f : ServerPlayer -> ServerPlayer) (k : Z) (d : dict ServerPlayer) :
  ~ In k (map fst d) ->
  map (fun e => (fst e, if fst e =? k then f (snd e) else snd e)) d = d.
Proof.
  induction d as [| [k0 v] d IH]; simpl; intros Hk; [reflexivity |].
  destruct (k0 =? k) eqn:E.
  - apply Z.eqb_eq in E. tauto.
  - rewrite IH by tauto. reflexivity.
Qed.

Lemma dict_get_none_keys (k : Z) (d : dict ServerPlayer) :
  dict_get k d = None -> ~ In k (map fst d).
Proof.
  induction d as [| [k0 v] d IH]; simpl; intros H; [tauto |].
  destruct (k0 =? k) eqn:E; [discriminate |].
  apply Z.eqb_neq in E. intros [H0 | H0]; [congruence | exact (IH H H0)].
Qed.

Lemma dict_alter_map (f : ServerPlayer -> ServerPlayer) (k : Z) (d : dict ServerPlayer) :
  List.NoDup (map fst d) ->
  dict_alter f k d = map (fun e => (fst e, if fst e =? k then f (snd e) else snd e)) d.
Proof.
  induction d as [| [k0 v] d IH]; simpl; intros Hnd; [reflexivity |].
  inversion Hnd as [| ? ? Hnotin Hnd']. subst.
  destruct (k0 =? k) eqn:E.
  - apply Z.eqb_eq in E. subst k0. rewrite map_other_keys by exact Hnotin.
    reflexivity.
  - rewrite IH by exact Hnd'. reflexivity.
Qed.

Lemma apply_input_map (m : PlayerData) (d : dict ServerPlayer) :
  List.NoDup (map fst d) ->
  apply_input d m =
  map (fun e => (fst e, if fst e =? player_id m then apply_to_player m (snd e) else snd e)) d.
Proof.
  intros Hnd. unfold Server.apply_input.
  destruct (dict_get (player_id m) d) eqn:Hm.
  - apply dict_alter_map. exact Hnd.
  - symmetry. apply map_other_keys. apply dict_get_none_keys. exact Hm.
Qed.

Lemma fold_apply_input_map (q : list PlayerData) (d : dict ServerPlayer) :
  List.NoDup (map fst d) ->
  fold_left apply_input q d = after_inputs q d.
Proof.
  revert d. induction q as [| m q IH]; intros d Hnd; simpl.
  - unfold Server.after_inputs. simpl.
    induction d as [| [k v] d IHd]; simpl; [reflexivity |].
    inversion Hnd; subst. rewrite <- IHd by assumption. reflexivity.
  - rewrite apply_input_map by exact Hnd.
    rewrite IH.
    + unfold Server.after_inputs. rewrite List.map_map.
      apply List.map_ext. intros [k v]. simpl.
      rewrite (Z.eqb_sym k). reflexivity.
    + rewrite List.map_map. simpl. exact Hnd.
Qed.

Lemma collect_app (ps : dict ServerPlayer) (updates : list Sendable) :
  collect ps updates = updates ++ map (fun e => get_sendable_state (snd e)) ps.
Proof.
  revert updates. induction ps as [| [k v] ps IH]; intros updates; simpl.
  - rewrite app_nil_r. reflexivity.
  - rewrite IH, <- app_assoc. reflexivity.
Qed.

(** *** The send loop *)

Lemma send_loop_log (send_raises : conn -> bool) (ps : dict ServerPlayer)
    (updates : list Sendable) (st_closed : list conn) (log : list (conn * bytes)) :
  exists sent : list conn,
    fst (send_loop send_raises ps updates st_closed log) =
    log ++ map (fun c => (c, pickle_dumps updates)) sent.
Proof.
  revert log. induction ps as [| [k v] ps IH]; intros log; simpl.
  - exists []. simpl. rewrite app_nil_r. reflexivity.
  - unfold sendall.
    destruct (send_raises (socket v) || bool_decide (socket v ∈ st_closed)).
    + exists []. simpl. rewrite app_nil_r. reflexivity.
    + destruct (IH (log ++ [(socket v, pickle_dumps updates)])) as [sent Hs].
      exists (socket v :: sent). rewrite Hs, <- app_assoc. reflexivity.
Qed.

Lemma tick_unfold (send_raises : conn -> bool) (st : State ServerPlayer Sendable) :
  let d := fold_left apply_input (state_queue st) (id_to_player st) in
  let sent := send_loop send_raises d (tick_snapshot st) (closed st) (delivered st) in
  state_queue (fst (tick send_raises st)) = [] /\
  id_to_player (fst (tick send_raises st)) = d /\
  closed (fst (tick send_raises st)) = closed st /\
  delivered (fst (tick send_raises st)) = fst sent /\
  snd (tick send_raises st) = snd sent.
Proof.
  cbv zeta. unfold Server.tick, Server.tick_snapshot. rewrite drain_fold. simpl.
  destruct (send_loop _ _ _ _ _) as [log [e |]]; simpl; auto.
Qed.

(** C6.  One pass of the tick loop empties the queue it found, leaves every
    player with the net effect of all the queued inputs addressed to it, and
    the snapshot it assembles and sends is the state of those players: what
    any client receives in the pass is that snapshot, with every queued
    input in it. *)
Theorem tick_applies_every_queued_input (send_raises : conn -> bool)
    (st : State ServerPlayer Sendable) :
  List.NoDup (map fst (id_to_player st)) ->
  server_updates st = [] ->
  let st' := fst (tick send_raises st) in
  let snapshot :=
    map (fun e => get_sendable_state (net_effect (fst e) (state_queue st) (snd e)))
        (id_to_player st) in
  state_queue st' = [] /\
  id_to_player st' = after_inputs (state_queue st) (id_to_player st) /\
  tick_snapshot st = snapshot /\
  exists sent : list conn,
    delivered st' = delivered st ++ map (fun c => (c, pickle_dumps snapshot)) sent.
Proof.
  intros Hnd Hempty. cbv zeta.
  destruct (tick_unfold send_raises st) as (Hq & Hd & _ & Hlog & _).
  assert (Hsnap : tick_snapshot st =
                  map (fun e => get_sendable_state
                                  (net_effect (fst e) (state_queue st) (snd e)))
                      (id_to_player st)).
  { unfold Server.tick_snapshot. rewrite drain_fold. simpl.
    rewrite collect_app, Hempty, fold_apply_input_map by exact Hnd. simpl.
    unfold Server.after_inputs. rewrite List.map_map. reflexivity. }
  split; [exact Hq |]. split.
  - rewrite Hd. apply fold_apply_input_map. exact Hnd.
  - split; [exact Hsnap |].
    rewrite Hlog, <- Hsnap. apply send_loop_log.
Qed.

(** A pass that ends without an exception leaves the globals as the next
    pass expects them: distinct keys, no pending updates. *)
Lemma tick_restores_loop_state (send_raises : conn -> bool)
    (st : State ServerPlayer Sendable) :
  List.NoDup (map fst (id_to_player st)) ->
  List.NoDup (map fst (id_to_player (fst (tick send_raises st)))) /\
  (snd (tick send_raises st) = None ->
   server_updates (fst (tick send_raises st)) = []).
Proof.
  intros Hnd. split.
  - destruct (tick_unfold send_raises st) as (_ & Hd & _).
    rewrite Hd, fold_apply_input_map by exact Hnd.
    unfold Server.after_inputs. rewrite List.map_map. simpl. exact Hnd.
  - unfold Server.tick. rewrite drain_fold.
    destruct (send_loop _ _ _ _ _) as [log [e |]]; simpl; [discriminate | reflexivity].
Qed.

(** C5 (as the code has it).  The snapshot goes out in the order of the
    player map.  The clients before the first one that cannot be sent to
    receive it; that send raises, nothing is sent after it, and the pass ends
    with the exception.  When there is no such client, all receive it. *)
Theorem broadcast_stops_at_first_failure (send_raises : conn -> bool)
    (before rest : dict ServerPlayer) (updates : list Sendable)
    (st_closed : list conn) (log : list (conn * bytes)) :
  Forall (fun e => can_send send_raises st_closed (socket (snd e)) = true) before ->
  match rest with
  | [] => True
  | e :: _ => can_send send_raises st_closed (socket (snd e)) = false
  end ->
  send_loop send_raises (before ++ rest) updates st_closed log =
  (log ++ map (fun e => (socket (snd e), pickle_dumps updates)) before,
   match rest with [] => None | _ :: _ => Some OtherError end).
Proof.
  intros Hbefore Hrest. revert log.
  induction Hbefore as [| [k v] before Hv Hbefore IH]; intros log; simpl.
  - rewrite app_nil_r. destruct rest as [| [k v] rest]; [reflexivity |].
    simpl in *. unfold can_send in Hrest. unfold sendall.
    apply negb_false_iff in Hrest. rewrite Hrest. reflexivity.
  - simpl in Hv. unfold can_send in Hv. apply negb_true_iff in Hv.
    unfold sendall. rewrite Hv. rewrite IH, <- app_assoc. reflexivity.
Qed.

(** *** client_state_producer *)

Lemma producer_iteration_frame (c : conn) (r : recv_result) (buf : string)
    (st : State ServerPlayer Sendable) :
  let out := producer_iteration c r buf st in
  id_to_player (snd out) = id_to_player st /\
  (fst out = Exited -> In c (closed (snd out))) /\
  (connection_lost r = true -> fst out = Exited).
Proof.
  cbv zeta. unfold Server.producer_iteration.
  destruct r as [[| b data] |]; simpl.
  - repeat split; auto.
  - destruct (decode_utf8 (b :: data)) as [text | e]; simpl.
    + destruct (put_all _ _ _) as [q [e |]]; simpl;
        repeat split; auto; discriminate.
    + repeat split; auto; discriminate.
  - repeat split; auto.
Qed.

Lemma producer_loop_frame (c : conn) (events : list recv_result) (buf : string)
    (st : State ServerPlayer Sendable) :
  let out := producer_loop c events buf st in
  id_to_player (snd out) = id_to_player st /\
  (fst out = Exited -> In c (closed (snd out))) /\
  (existsb connection_lost events = true -> fst out = Exited).
Proof.
  cbv zeta. revert buf st.
  induction events as [| r events IH]; intros buf st; simpl.
  - repeat split; discriminate.
  - destruct (producer_iteration_frame c r buf st) as (Hmap & Hclosed & Hlost).
    destruct (producer_iteration c r buf st) as [[buf' |] st'] eqn:Hit; simpl in *.
    + destruct (IH buf' st') as (Hmap' & Hclosed' & Hlost').
      split; [congruence |]. split; [exact Hclosed' |].
      intros Hex. apply orb_true_iff in Hex. destruct Hex as [Hr | Hex].
      * specialize (Hlost Hr). discriminate.
      * exact (Hlost' Hex).
    + repeat split; auto.
Qed.

Lemma dict_get_In (k : Z) (p : ServerPlayer) (d : dict ServerPlayer) :
  dict_get k d = Some p -> In p (map snd d).
Proof.
  induction d as [| [k0 v] d IH]; simpl; [discriminate |].
  destruct (k0 =? k); intros H; [left; congruence | right; exact (IH H)].
Qed.

(** A player in the map is in the snapshot of the pass, with its inputs
    applied. *)
Lemma tick_snapshot_includes (send_raises : conn -> bool) (k : Z) (p : ServerPlayer)
    (st : State ServerPlayer Sendable) :
  dict_get k (id_to_player st) = Some p ->
  exists p' : ServerPlayer,
    dict_get k (id_to_player (fst (tick send_raises st))) = Some p' /\
    In (get_sendable_state p') (tick_snapshot st).
Proof.
  intros Hk. exists (net_effect k (state_queue st) p).
  destruct (tick_unfold send_raises st) as (_ & Hd & _).
  assert (Hget : dict_get k (fold_left apply_input (state_queue st) (id_to_player st))
                 = Some (net_effect k (state_queue st) p)).
  { rewrite dict_get_after_queue, Hk. reflexivity. }
  split; [rewrite Hd; exact Hget |].
  unfold Server.tick_snapshot. rewrite drain_fold. simpl.
  rewrite collect_app. apply in_or_app. right.
  apply dict_get_In in Hget. apply List.in_map_iff in Hget.
  destruct Hget as ([k1 p1] & Hp1 & Hin). simpl in Hp1. subst p1.
  apply List.in_map_iff. exists (k1, net_effect k (state_queue st) p).
  split; [reflexivity | exact Hin].
Qed.

(** C8.  When a [recv] returns no bytes or raises, the connection's thread
    has left its loop and closed the socket, and it has not touched the
    player map: every entry, the disconnected player's included, is still
    there, and any later pass of the tick loop over that map puts the player
    in its snapshot. *)
Theorem producer_exits_and_player_remains (c : conn) (events : list recv_result)
    (st : State ServerPlayer Sendable) :
  existsb connection_lost events = true ->
  let out := client_state_producer c events st in
  fst out = Exited /\
  In c (closed (snd out)) /\
  id_to_player (snd out) = id_to_player st /\
  forall (send_raises : conn -> bool) (later : State ServerPlayer Sendable)
         (k : Z) (p : ServerPlayer),
    id_to_player later = id_to_player (snd out) ->
    dict_get k (id_to_player st) = Some p ->
    exists p' : ServerPlayer,
      dict_get k (id_to_player (fst (tick send_raises later))) = Some p' /\
      In (get_sendable_state p') (tick_snapshot later).
Proof.
  intros Hlost. cbv zeta. unfold Server.client_state_producer.
  destruct (producer_loop_frame c events EmptyString st) as (Hmap & Hclosed & Hexit).
  specialize (Hexit Hlost). split; [exact Hexit |].
  split; [exact (Hclosed Hexit) |]. split; [exact Hmap |].
  intros send_raises later k p Hlater Hk.
  apply (tick_snapshot_includes send_raises k p later).
  rewrite Hlater, Hmap. exact Hk.
Qed.

End ServerFacts.

(** Two players and one queued input of player 1, [(dx, dy, dm, dt) =
    (3, 4, 1/2, 1)]: after the pass player 1 is at (3, 4) with aim 1/2,
    player 0 has not moved, and that is the snapshot both clients are sent. *)
Lemma tick_applies_every_queued_input_witness :
  let st' := fst (Server.tick Examples.Avatar (Q * Q * Q) Examples.avatar_conn
                    Examples.update_position Examples.update_aim
                    Examples.get_sendable_state Examples.pickle_dumps
                    (fun _ => false) Examples.lobby_with_input) in
  let snapshot := [(0%Q, 0%Q, 0%Q); ((3 # 1)%Q, (4 # 1)%Q, (1 # 2)%Q)] in
  Server.state_queue st' = [] /\
  Server.id_to_player st' =
    [(0, Examples.mkAvatar 0%Q 0%Q 0%Q 7%nat);
     (1, Examples.mkAvatar (3 # 1)%Q (4 # 1)%Q (1 # 2)%Q 8%nat)] /\
  Server.tick_snapshot Examples.Avatar (Q * Q * Q) Examples.update_position
    Examples.update_aim Examples.get_sendable_state Examples.lobby_with_input
    = snapshot /\
  exists sent : list Server.conn,
    Server.delivered st' =
    Server.delivered Examples.lobby_with_input ++
    map (fun c => (c, Examples.pickle_dumps snapshot)) sent.
Proof.
  exact (tick_applies_every_queued_input Examples.avatar_conn
           Examples.update_position Examples.update_aim
           Examples.get_sendable_state Examples.pickle_dumps
           (fun _ => false) Examples.lobby_with_input
           ltac:(simpl; repeat constructor; simpl; intuition lia)
           eq_refl).
Defined.

(** C5, the claim as stated, fails: with two players of whom the first
    cannot be sent to, the second, whose socket is fine, receives nothing. *)
Lemma failed_send_blocks_the_others :
  ~ Server.failed_send_does_not_block Examples.Avatar (Q * Q * Q)
      Examples.avatar_conn Examples.update_position Examples.update_aim
      Examples.get_sendable_state Examples.pickle_dumps.
Proof.
  intros Hclaim.
  specialize (Hclaim Examples.first_is_broken Examples.lobby 1
                (Examples.new_player 1 8%nat) eq_refl eq_refl).
  vm_compute in Hclaim. exact Hclaim.
Qed.

(** The sound client first, the broken one second, and a third behind it:
    only the first receives the snapshot. *)
Lemma broadcast_stops_at_first_failure_witness :
  Server.send_loop Examples.Avatar (Q * Q * Q) Examples.avatar_conn
    Examples.pickle_dumps Examples.first_is_broken
    ([(1, Examples.new_player 1 8%nat)] ++
     [(0, Examples.new_player 0 7%nat); (2, Examples.new_player 2 9%nat)])
    [] [] []
  = ([] ++ map (fun e : Z * Examples.Avatar =>
                  (Examples.avatar_conn (snd e), Examples.pickle_dumps []))
               [(1, Examples.new_player 1 8%nat)],
     Some OtherError).
Proof.
  apply (broadcast_stops_at_first_failure Examples.avatar_conn Examples.pickle_dumps
           Examples.first_is_broken
           [(1, Examples.new_player 1 8%nat)]
           [(0, Examples.new_player 0 7%nat); (2, Examples.new_player 2 9%nat)]
           [] [] []).
  - constructor; [reflexivity | constructor].
  - reflexivity.
Defined.

(** A connection that delivers one complete record and then is lost. *)
Lemma producer_exits_and_player_remains_witness :
  let out := Server.client_state_producer Examples.Avatar (Q * Q * Q)
               Examples.str_to_player_data Examples.decode_utf8 8%nat
               [Server.RecvBytes [Byte.x31; Byte.x7e]; Server.RecvBytes []]
               Examples.lobby in
  fst out = Server.Exited /\
  In 8%nat (Server.closed (snd out)) /\
  Server.id_to_player (snd out) = Server.id_to_player Examples.lobby /\
  forall (send_raises : Server.conn -> bool)
         (later : Server.State Examples.Avatar (Q * Q * Q))
         (k : Z) (p : Examples.Avatar),
    Server.id_to_player later = Server.id_to_player (snd out) ->
    Server.dict_get k (Server.id_to_player Examples.lobby) = Some p ->
    exists p' : Examples.Avatar,
      Server.dict_get k
        (Server.id_to_player
           (fst (Server.tick Examples.Avatar (Q * Q * Q) Examples.avatar_conn
                   Examples.update_position Examples.update_aim
                   Examples.get_sendable_state Examples.pickle_dumps
                   send_raises later))) = Some p' /\
      In (Examples.get_sendable_state p')
         (Server.tick_snapshot Examples.Avatar (Q * Q * Q) Examples.update_position
            Examples.update_aim Examples.get_sendable_state later).
Proof.
  apply (producer_exits_and_player_remains Examples.avatar_conn
           Examples.update_position Examples.update_aim
           Examples.get_sendable_state Examples.str_to_player_data
           Examples.decode_utf8 Examples.pickle_dumps 8%nat
           [Server.RecvBytes [Byte.x31; Byte.x7e]; Server.RecvBytes []]
           Examples.lobby).
  reflexivity.
Defined.

(** ** Framing *)

Section FramingFacts.

Import Framing.

(** What [recv_exactly] returns is the next [n] bytes of the stream. *)
Lemma recv_exactly_sound (chunks rest : list bytes) (n : nat) (bs : bytes) :
  recv_exactly chunks n = Some (bs, rest) ->
  concat chunks = bs ++ concat rest /\ length bs = n.
Proof.
  revert n bs rest. induction chunks as [| chunk chunks IH]; intros n bs rest H.
  - destruct n; simpl in H; [| discriminate].
    injection H as <- <-. split; reflexivity.
  - destruct n as [| n'].
    + simpl in H. injection H as <- <-. split; reflexivity.
    + cbn [recv_exactly] in H. destruct chunk as [| b chunk]; [discriminate |].
      destruct (length (b :: chunk) <=? S n')%nat eqn:Hle.
      * destruct (recv_exactly chunks (S n' - length (b :: chunk))) as [[more rest'] |]
          eqn:Hrec; [| discriminate].
        injection H as <- <-. apply Nat.leb_le in Hle.
        destruct (IH _ _ _ Hrec) as [Hcat Hlen].
        split.
        -- cbn [concat]. rewrite Hcat, app_assoc. reflexivity.
        -- change (length ((b :: chunk) ++ more) = S n').
           rewrite length_app, Hlen. lia.
      * injection H as <- <-. apply Nat.leb_gt in Hle. split.
        -- cbn [concat]. simpl. rewrite app_assoc, take_drop. reflexivity.
        -- change (length (take (S n') (b :: chunk)) = S n').
           rewrite length_take. lia.
Qed.

(** A message the client hands to [pickle.loads] was preceded on the wire
    by four bytes that are not part of it. *)
Lemma receive_message_sound (chunks rest : list bytes) (message : bytes) :
  receive_message chunks = Some (message, rest) ->
  exists size_bytes : bytes,
    length size_bytes = 4%nat /\
    length message = N.to_nat (from_bytes_little size_bytes) /\
    concat chunks = size_bytes ++ message ++ concat rest.
Proof.
  unfold receive_message. intros H.
  destruct (recv_exactly chunks 4) as [[size_bytes chunks'] |] eqn:Hsize;
    [| discriminate].
  apply recv_exactly_sound in Hsize. destruct Hsize as [Hcat Hlen].
  apply recv_exactly_sound in H. destruct H as [Hcat' Hlen'].
  exists size_bytes. split; [exact Hlen |]. split; [exact Hlen' |].
  rewrite Hcat, Hcat'. reflexivity.
Qed.

Lemma low_byte_value (n : N) : Byte.to_N (low_byte n) = (n mod 256)%N.
Proof.
  unfold low_byte. destruct (Byte.of_N (n mod 256)) as [b |] eqn:E.
  - apply Byte.to_of_N. exact E.
  - apply Byte.of_N_None_iff in E.
    assert (n mod 256 < 256)%N by (apply N.mod_lt; discriminate). lia.
Qed.

Lemma length_to_bytes_little (k : nat) (n : N) : length (to_bytes_little k n) = k.
Proof. revert n. induction k as [| k IH]; intros n; simpl; [| rewrite IH]; reflexivity. Qed.

Lemma from_to_bytes_little (k : nat) (n : N) :
  (n < 256 ^ N.of_nat k)%N ->
  from_bytes_little (to_bytes_little k n) = n.
Proof.
  revert n. induction k as [| k IH]; intros n Hn.
  - simpl in *. lia.
  - cbn [to_bytes_little from_bytes_little].
    rewrite low_byte_value, IH.
    + rewrite (N.div_mod n 256) at 3 by discriminate. lia.
    + rewrite Nat2N.inj_succ, N.pow_succ_r' in Hn.
      apply N.Div0.div_lt_upper_bound. exact Hn.
Qed.

(** If the stream holds [n] more bytes, in non-empty chunks of any sizes,
    [recv_exactly] returns. *)
Lemma recv_exactly_complete (chunks : list bytes) (n : nat) :
  Forall (fun chunk => chunk <> []) chunks ->
  (n <= length (concat chunks))%nat ->
  exists (bs : bytes) (rest : list bytes),
    recv_exactly chunks n = Some (bs, rest) /\
    Forall (fun chunk => chunk <> []) rest.
Proof.
  intros Hne. revert n. induction Hne as [| chunk chunks Hchunk Hne IH]; intros n Hn.
  - simpl in Hn. assert (n = 0%nat) by lia. subst n.
    exists [], []. split; [reflexivity | constructor].
  - destruct n as [| n'].
    + exists [], (chunk :: chunks). split; [reflexivity |].
      constructor; assumption.
    + cbn [recv_exactly]. destruct chunk as [| b chunk]; [congruence |].
      cbn [concat] in Hn. rewrite length_app in Hn.
      destruct (length (b :: chunk) <=? S n')%nat eqn:Hle.
      * apply Nat.leb_le in Hle.
        destruct (IH (S n' - length (b :: chunk))%nat) as (more & rest & Hrec & Hrest);
          [lia |].
        rewrite Hrec. eauto.
      * apply Nat.leb_gt in Hle. eexists _, _. split; [reflexivity |].
        constructor; [| exact Hne].
        intros Hdrop. apply (f_equal (@length Byte.byte)) in Hdrop.
        rewrite length_drop in Hdrop. simpl in Hdrop, Hle. lia.
Qed.

(** The receiving side is sound against a sender that frames: a payload of
    fewer than 2^32 bytes sent as [frame payload] is handed to [pickle.loads]
    byte for byte, however the stream is chunked, and the bytes after it are
    left for the next message. *)
Lemma client_reassembles_framed (payload tail : bytes) (chunks : list bytes) :
  (N.of_nat (length payload) < 2 ^ 32)%N ->
  Forall (fun chunk => chunk <> []) chunks ->
  concat chunks = frame payload ++ tail ->
  exists rest : list bytes,
    receive_message chunks = Some (payload, rest) /\ concat rest = tail.
Proof.
  intros Hsize Hne Hcat. unfold receive_message, frame in *.
  destruct (recv_exactly_complete chunks 4 Hne) as (hdr & chunks' & Hhdr & Hne').
  { rewrite Hcat, !length_app, length_to_bytes_little. lia. }
  rewrite Hhdr. apply recv_exactly_sound in Hhdr. destruct Hhdr as [Hcat' Hlen].
  rewrite Hcat, <- app_assoc in Hcat'.
  apply app_inj_1 in Hcat'; [| rewrite length_to_bytes_little; lia].
  destruct Hcat' as [Hhdr Hrest]. subst hdr.
  rewrite from_to_bytes_little by exact Hsize. rewrite Nat2N.id.
  destruct (recv_exactly_complete chunks' (length payload) Hne')
    as (message & rest & Hmsg & _).
  { rewrite <- Hrest, length_app. lia. }
  rewrite Hmsg. apply recv_exactly_sound in Hmsg. destruct Hmsg as [Hcat2 Hlen2].
  rewrite <- Hrest in Hcat2. symmetry in Hcat2.
  apply app_inj_1 in Hcat2; [| exact Hlen2].
  destruct Hcat2 as [-> Htail]. exists rest. split; [reflexivity | exact Htail].
Qed.

Lemma frame_is_longer (payload : bytes) : payload <> frame payload.
Proof.
  intros H. apply (f_equal (@length Byte.byte)) in H.
  unfold frame in H. rewrite length_app, length_to_bytes_little in H. lia.
Qed.

Context {ServerPlayer Sendable : Type}.
Variable new_player : Z -> Server.conn -> ServerPlayer.
Variable socket : ServerPlayer -> Server.conn.
Variable update_position : Q -> Q -> Q -> ServerPlayer -> ServerPlayer.
Variable update_aim : Q -> ServerPlayer -> ServerPlayer.
Variable get_sendable_state : ServerPlayer -> Sendable.
Variable pickle_dumps : list Sendable -> bytes.
Variable encode_id : Z -> bytes.

(** C9 (as the code has it).  The server sends every message as it is,
    with no length in front: on accept the encoded id, and in a pass of the
    tick loop, to each client reached, the pickled snapshot, which is never
    the length-prefixed frame of itself.  The receive loop of the client
    reads frames: from a stream that holds the 4-byte little-endian length
    of a payload of fewer than 2^32 bytes and then the payload, it hands
    exactly that payload to [pickle.loads], byte for byte and however the
    stream is cut into chunks, and leaves the rest of the stream. *)
Theorem server_sends_raw_client_reads_frames (send_raises : Server.conn -> bool)
    (st : Server.State ServerPlayer Sendable)
    (payload tail : bytes) (chunks : list bytes) :
  (N.of_nat (length payload) < 2 ^ 32)%N ->
  Forall (fun chunk => chunk <> []) chunks ->
  concat chunks = frame payload ++ tail ->
  let snapshot :=
    pickle_dumps (Server.tick_snapshot ServerPlayer Sendable update_position
                    update_aim get_sendable_state st) in
  (exists receivers : list Server.conn,
     Server.delivered
       (fst (Server.tick ServerPlayer Sendable socket update_position update_aim
               get_sendable_state pickle_dumps send_raises st)) =
     Server.delivered st ++ map (fun c => (c, snapshot)) receivers) /\
  snapshot <> frame snapshot /\
  (forall (c : Server.conn) (pid : Z),
     match Server.acceptor_iteration ServerPlayer Sendable new_player encode_id
             send_raises c pid st with
     | Ok (_, st') =>
         Server.delivered st' = Server.delivered st ++ [(c, encode_id pid)]
     | Raise _ => True
     end) /\
  exists rest : list bytes,
    receive_message chunks = Some (payload, rest) /\ concat rest = tail.
Proof.
  intros Hsize Hne Hcat. cbv zeta. split; [| split; [| split]].
  - destruct (tick_unfold socket update_position update_aim get_sendable_state
                pickle_dumps send_raises st) as (_ & _ & _ & Hlog & _).
    rewrite Hlog. apply send_loop_log.
  - apply frame_is_longer.
  - intros c pid. unfold Server.acceptor_iteration, Server.sendall.
    destruct (send_raises c || bool_decide (c ∈ Server.closed st)); [exact I |].
    reflexivity.
  - exact (client_reassembles_framed payload tail chunks Hsize Hne Hcat).
Qed.

End FramingFacts.

(** C9, the claim as stated, fails: in a pass over two players with sound
    sockets, what the first client is sent is the pickled snapshot itself,
    not its frame. *)
Lemma snapshot_is_sent_unframed :
  ~ Framing.framing_round_trips Examples.Avatar (Q * Q * Q) Examples.avatar_conn
      Examples.update_position Examples.update_aim Examples.get_sendable_state
      Examples.pickle_dumps.
Proof.
  intros Hclaim.
  destruct (Hclaim (fun _ => false) Examples.lobby 7%nat
              [Byte.x80; Byte.x04; Byte.x4b; Byte.x4b; Byte.x2e]
              [[Byte.x80; Byte.x04; Byte.x4b; Byte.x4b; Byte.x2e]]
              eq_refl
              ltac:(vm_compute; left; reflexivity)
              ltac:(repeat constructor; discriminate)
              eq_refl) as [Hframe _].
  vm_compute in Hframe. discriminate.
Qed.

(** The pass over the two players of the lobby, and a client reading the
    frame of the one-byte payload [41], cut after two bytes. *)
Lemma server_sends_raw_client_reads_frames_witness :
  let snapshot :=
    Examples.pickle_dumps
      (Server.tick_snapshot Examples.Avatar (Q * Q * Q) Examples.update_position
         Examples.update_aim Examples.get_sendable_state Examples.lobby) in
  (exists receivers : list Server.conn,
     Server.delivered
       (fst (Server.tick Examples.Avatar (Q * Q * Q) Examples.avatar_conn
               Examples.update_position Examples.update_aim
               Examples.get_sendable_state Examples.pickle_dumps
               (fun _ => false) Examples.lobby)) =
     Server.delivered Examples.lobby ++ map (fun c => (c, snapshot)) receivers) /\
  snapshot <> Framing.frame snapshot /\
  (forall (c : Server.conn) (pid : Z),
     match Server.acceptor_iteration Examples.Avatar (Q * Q * Q) Examples.new_player
             Examples.encode_id (fun _ => false) c pid Examples.lobby with
     | Ok (_, st') =>
         Server.delivered st' =
         Server.delivered Examples.lobby ++ [(c, Examples.encode_id pid)]
     | Raise _ => True
     end) /\
  exists rest : list Framing.bytes,
    Framing.receive_message
      [[Byte.x01; Byte.x00]; [Byte.x00; Byte.x00; Byte.x41]]
    = Some ([Byte.x41], rest) /\ concat rest = [].
Proof.
  apply (server_sends_raw_client_reads_frames Examples.new_player Examples.avatar_conn
           Examples.update_position Examples.update_aim Examples.get_sendable_state
           Examples.pickle_dumps Examples.encode_id (fun _ => false) Examples.lobby
           [Byte.x41] []
           [[Byte.x01; Byte.x00]; [Byte.x00; Byte.x00; Byte.x41]]).
  - reflexivity.
  - repeat constructor; discriminate.
  - reflexivity.
Defined.

(** * Further properties of the same code *)

(** ** HitscanBeam.step: what it leaves alone *)

Section BeamStepMore.

Import Beam.

(** X1.  [step] never changes [SIMULATION.players], never creates or removes
    an object, and changes no object other than the closest entity and the
    beam's owner. *)
Theorem step_touches_only_hit_and_firer (b : HitscanBeam) (closest_hit : option Vec)
    (closest_entity : option Entity) (ticks : Z) (sim : Simulation) :
  players (step b closest_hit closest_entity ticks sim) = players sim /\
  dom (heap (step b closest_hit closest_entity ticks sim)) = dom (heap sim) /\
  forall l' : loc,
    closest_entity <> Some (EObject l') ->
    l' <> player b ->
    heap (step b closest_hit closest_entity ticks sim) !! l' = heap sim !! l'.
Proof.
  unfold step.
  destruct closest_hit as [pt |]; [| auto].
  destruct closest_entity as [[| l] |]; [auto | | auto].
  destruct (heap sim !! l) as [hp |] eqn:Hl; [| auto].
  destruct (decide (uuid hp ∈ players sim)) as [Hin | Hnot]; [| auto].
  cbv zeta. destruct (health hp - damage b <=? 0).
  - simpl. split; [reflexivity |]. split.
    + destruct (time_of_death hp); rewrite !dom_alter_L; reflexivity.
    + intros l' Hl' Hfirer.
      assert (l <> l') by congruence.
      rewrite lookup_alter_ne by congruence.
      destruct (time_of_death hp); rewrite !lookup_alter_ne by assumption;
        reflexivity.
  - simpl. split; [reflexivity |]. split.
    + rewrite !dom_alter_L. reflexivity.
    + intros l' Hl' Hfirer.
      assert (l <> l') by congruence.
      rewrite !lookup_alter_ne by assumption. reflexivity.
Qed.

(** X2.  A beam that hits another player changes nothing of its owner but
    the frag count: one more when the hit leaves the health at zero or below,
    the same when the player survives. *)
Theorem step_credits_one_frag_per_lethal_hit (b : HitscanBeam) (pt : Vec)
    (l : loc) (ticks : Z) (sim : Simulation) (hp firer : Player) :
  heap sim !! l = Some hp ->
  uuid hp ∈ players sim ->
  player b <> l ->
  heap sim !! player b = Some firer ->
  heap (step b (Some pt) (Some (EObject l)) ticks sim) !! player b =
  Some (if health hp - damage b <=? 0
        then set_num_frags (num_frags firer + 1) firer
        else firer).
Proof.
  intros Hl Hin Hne Hf.
  rewrite (step_unfold_hit b pt l ticks sim hp Hl Hin). cbv zeta.
  destruct (health hp - damage b <=? 0).
  - erewrite alter_set_lookup; [reflexivity |].
    destruct (time_of_death hp); rewrite !lookup_alter_ne by congruence; exact Hf.
  - rewrite !lookup_alter_ne by congruence. exact Hf.
Qed.

(** X3.  A beam with no hit point, no closest entity, a wall for closest
    entity, or an object whose uuid is not a key of [SIMULATION.players],
    changes nothing at all. *)
Theorem step_without_player_hit_is_noop (b : HitscanBeam) (closest_hit : option Vec)
    (closest_entity : option Entity) (ticks : Z) (sim : Simulation) :
  (closest_hit = None \/
   closest_entity = None \/
   closest_entity = Some EWall \/
   exists l : loc,
     closest_entity = Some (EObject l) /\
     forall hp : Player, heap sim !! l = Some hp -> uuid hp ∉ players sim) ->
  step b closest_hit closest_entity ticks sim = sim.
Proof.
  intros H. unfold step.
  destruct closest_hit as [pt |]; [| reflexivity].
  destruct closest_entity as [[| l] |]; [reflexivity | | reflexivity].
  destruct H as [H | [H | [H | (l0 & Hl0 & Hnot)]]]; try discriminate.
  injection Hl0 as <-.
  destruct (heap sim !! l) as [hp |] eqn:Hl; [| reflexivity].
  destruct (decide (uuid hp ∈ players sim)) as [Hin | _]; [| reflexivity].
  exfalso. exact (Hnot hp eq_refl Hin).
Qed.

End BeamStepMore.

(** The example beam kills nobody when it hits the live player at 2: its
    owner at 0 keeps a count of 0. *)
Lemma step_credits_one_frag_per_lethal_hit_witness :
  Beam.heap (Beam.step Examples.railgun_beam (Some vzero) (Some (Beam.EObject 2%nat))
               7 Examples.arena) !! 0%nat =
  Some (if Beam.health Examples.target - Beam.damage Examples.railgun_beam <=? 0
        then Beam.set_num_frags (Beam.num_frags Examples.firer + 1) Examples.firer
        else Examples.firer).
Proof.
  apply (step_credits_one_frag_per_lethal_hit Examples.railgun_beam vzero 2%nat 7
           Examples.arena Examples.target Examples.firer).
  - reflexivity.
  - apply (bool_decide_unpack (12 ∈ Beam.players Examples.arena)).
    vm_compute. exact I.
  - simpl. lia.
  - reflexivity.
Defined.

(** The example beam stopped by a wall. *)
Lemma step_without_player_hit_is_noop_witness :
  Beam.step Examples.railgun_beam (Some vzero) (Some Beam.EWall) 7 Examples.arena
  = Examples.arena.
Proof.
  apply (step_without_player_hit_is_noop Examples.railgun_beam (Some vzero)
           (Some Beam.EWall) 7 Examples.arena).
  right. right. left. reflexivity.
Defined.

(** ** RadialExplosives.activate: the edges *)

Section ActivateMore.

Variable unit_vector : Vec -> Vec.
Variable get_slope : Vec -> Vec -> result Q.
Variable get_sign : Q -> Z.
Variable polar_to_cartesian : Q -> Q -> Q * Q.
Variable tau : Q.

(** X5.  [activate] never returns a beam: when it returns, the shard count
    is negative and the list is empty (a count of zero raises
    [ZeroDivisionError], a positive one [TypeError]). *)
Theorem activate_returns_no_beam (r : Weapons.RadialExplosives) (pos : Vec)
    (beams : list Weapons.HitscanBeam) :
  Weapons.activate unit_vector get_slope get_sign polar_to_cartesian tau r pos
    = Ok beams ->
  beams = [] /\ Weapons.num_shards r < 0.
Proof.
  intros H.
  destruct (Z.lt_trichotomy (Weapons.num_shards r) 0) as [Hneg | [Hz | Hpos]].
  - rewrite activate_negative_shards in H by exact Hneg.
    injection H as <-. split; [reflexivity | exact Hneg].
  - rewrite activate_no_shards in H by exact Hz. discriminate.
  - unfold Weapons.activate in H.
    destruct (Weapons.num_shards r =? 0) eqn:Hz; [discriminate |].
    rewrite seqZ_cons, activate_loop_first_shard in H by lia. discriminate.
Qed.

End ActivateMore.

(** A payload with a shard count of -1 returns the empty list. *)
Lemma activate_returns_no_beam_witness :
  @nil Weapons.HitscanBeam = [] /\ Weapons.num_shards Examples.no_shards < 0.
Proof.
  apply (activate_returns_no_beam Examples.unit_vector Examples.get_slope
           Examples.get_sign Examples.polar_to_cartesian Examples.tau
           Examples.no_shards vzero []).
  reflexivity.
Defined.

(** ** The two locks: exclusion, and what an exception leaves behind *)

Section LockMore.

Import Locks.

Lemma local_into_critical (l : lock) (c c' : pc) :
  local c c' -> in_critical_section l c' = true -> in_critical_section l c = true.
Proof. intros Hstep; destruct Hstep, l; simpl; congruence. Qed.

Lemma acquires_own_section (l l' : lock) (c c' : pc) :
  acquires c l c' -> in_critical_section l' c' = true -> l' = l.
Proof. intros Hstep; destruct Hstep, l'; simpl; congruence. Qed.

Lemma releases_from_critical (l : lock) (c c' : pc) :
  releases c l c' -> in_critical_section l c = true.
Proof. intros Hstep; destruct Hstep; reflexivity. Qed.

Lemma releases_out_of_critical (l l' : lock) (c c' : pc) :
  releases c l c' -> in_critical_section l' c' = false.
Proof. intros Hstep; destruct Hstep, l'; reflexivity. Qed.

Lemma critical_owns_initial : critical_owns initial.
Proof.
  intros l t c Ht Hc. unfold initial in Ht. simpl in Ht.
  rewrite lookup_insert in Ht. destruct (decide (1%nat = t)) as [<- | Hn1].
  - injection Ht as <-. destruct l; discriminate.
  - rewrite lookup_insert in Ht. destruct (decide (0%nat = t)) as [<- | Hn0].
    + injection Ht as <-. destruct l; discriminate.
    + rewrite lookup_empty in Ht. discriminate.
Qed.

Lemma critical_owns_step (s s' : Sys) :
  critical_owns s -> step s s' -> critical_owns s'.
Proof.
  intros Hinv Hstep l0 t0 c0 Ht0 Hc0.
  destruct Hstep as [t c c' s Ht Hloc | t c l c' s Ht Hacq Hfree
                    | t c l c' s Ht Hrel | t t' s Ht Hfresh].
  - rewrite owner_set_pc. rewrite threads_set_pc in Ht0.
    destruct (decide (t = t0)) as [-> | Hne]; [| eauto].
    injection Ht0 as <-.
    apply (Hinv l0 t0 c Ht). exact (local_into_critical l0 c c' Hloc Hc0).
  - rewrite owner_set_owner, owner_set_pc.
    rewrite threads_set_owner, threads_set_pc in Ht0.
    destruct (decide (t = t0)) as [-> | Hne].
    + injection Ht0 as <-.
      rewrite (acquires_own_section l l0 c c' Hacq Hc0).
      destruct (decide (l = l)) as [_ | Hn]; [reflexivity | congruence].
    + destruct (decide (l0 = l)) as [-> | Hl]; [| eauto].
      rewrite (Hinv l t0 c0 Ht0 Hc0) in Hfree. discriminate.
  - rewrite owner_set_owner, owner_set_pc.
    rewrite threads_set_owner, threads_set_pc in Ht0.
    destruct (decide (t = t0)) as [-> | Hne].
    + injection Ht0 as <-.
      rewrite (releases_out_of_critical l l0 c c' Hrel) in Hc0. discriminate.
    + destruct (decide (l0 = l)) as [-> | Hl]; [| eauto].
      pose proof (Hinv l t c Ht (releases_from_critical l c c' Hrel)) as Ho.
      pose proof (Hinv l t0 c0 Ht0 Hc0) as Ho0. congruence.
  - rewrite !owner_set_pc. rewrite !threads_set_pc in Ht0.
    destruct (decide (t' = t0)) as [-> | Hne'].
    + injection Ht0 as <-. destruct l0; discriminate.
    + destruct (decide (t = t0)) as [-> | Hne]; [| eauto].
      injection Ht0 as <-. destruct l0; discriminate.
Qed.

Lemma reachable_invariants (s : Sys) :
  reachable s -> owners_in_place s /\ critical_owns s.
Proof.
  induction 1 as [| s s' Hreach [Hown Hcrit] Hstep].
  - split; [exact owners_in_place_initial | exact critical_owns_initial].
  - split; [exact (owners_in_place_step s s' Hown Hstep)
           | exact (critical_owns_step s s' Hcrit Hstep)].
Qed.

Lemma steps_reachable (s s' : Sys) : reachable s -> steps s s' -> reachable s'.
Proof.
  intros Hreach Hsteps. induction Hsteps as [| s s' s'' Hsteps IH Hstep]; [assumption |].
  exact (reachable_step s' s'' (IH Hreach) Hstep).
Qed.

(** X6.  Mutual exclusion: in no reachable state are two threads inside the
    critical section of the same lock.  So no producer puts a message on the
    queue while the tick thread drains it, and the acceptor does not insert a
    player while the tick thread collects and sends. *)
Theorem critical_sections_exclude (s : Sys) (l : lock) (t1 t2 : nat) (c1 c2 : pc) :
  reachable s ->
  threads s !! t1 = Some c1 -> in_critical_section l c1 = true ->
  threads s !! t2 = Some c2 -> in_critical_section l c2 = true ->
  t1 = t2.
Proof.
  intros Hreach H1 Hc1 H2 Hc2.
  destruct (reachable_invariants s Hreach) as [_ Hcrit].
  pose proof (Hcrit l t1 c1 H1 Hc1) as Ho1.
  pose proof (Hcrit l t2 c2 H2 Hc2) as Ho2. congruence.
Qed.

Lemma local_keeps_abandoned (l : lock) (c c' : pc) :
  local c c' -> may_own l c = true -> in_critical_section l c = false ->
  may_own l c' = true /\ in_critical_section l c' = false.
Proof. intros Hstep; destruct Hstep, l; simpl; intros; split; congruence. Qed.

Lemma abandoned_step (s s' : Sys) (l : lock) (t : nat) :
  owners_in_place s -> critical_owns s ->
  abandoned l t s -> step s s' -> abandoned l t s'.
Proof.
  intros Hown Hcrit (Ho & c0 & Ht0 & Hmay & Hout) Hstep. unfold abandoned.
  destruct Hstep as [t1 c c' s Ht Hloc | t1 c l1 c' s Ht Hacq Hfree
                    | t1 c l1 c' s Ht Hrel | t1 t' s Ht Hfresh].
  - rewrite owner_set_pc, threads_set_pc. split; [exact Ho |].
    destruct (decide (t1 = t)) as [-> | Hne]; [| eauto].
    assert (c0 = c) by congruence. subst c0.
    exists c'. split; [reflexivity |].
    exact (local_keeps_abandoned l c c' Hloc Hmay Hout).
  - rewrite owner_set_owner, owner_set_pc, threads_set_owner, threads_set_pc.
    destruct (decide (l = l1)) as [-> | Hl]; [congruence |].
    split; [exact Ho |].
    destruct (decide (t1 = t)) as [-> | Hne]; [| eauto].
    assert (c0 = c) by congruence. subst c0.
    rewrite (acquires_from_nothing l1 l c c' Hacq) in Hmay. discriminate.
  - rewrite owner_set_owner, owner_set_pc, threads_set_owner, threads_set_pc.
    destruct (decide (l = l1)) as [-> | Hl].
    + exfalso.
      pose proof (Hcrit l1 t1 c Ht (releases_from_critical l1 c c' Hrel)) as Ho1.
      assert (t1 = t) by congruence. subst t1.
      assert (c0 = c) by congruence. subst c0.
      rewrite (releases_from_critical l1 c c' Hrel) in Hout. discriminate.
    + split; [exact Ho |].
      destruct (decide (t1 = t)) as [-> | Hne]; [| eauto].
      assert (c0 = c) by congruence. subst c0.
      rewrite (releases_only_own l1 l c c' Hrel Hl) in Hmay. discriminate.
  - rewrite !owner_set_pc, !threads_set_pc. split; [exact Ho |].
    destruct (decide (t' = t)) as [-> | Hne']; [congruence |].
    destruct (decide (t1 = t)) as [-> | Hne]; [| eauto].
    assert (c0 = AccSpawn) by congruence. subst c0.
    rewrite spawning_owns_nothing in Hmay. discriminate.
Qed.

(** X7.  A lock whose owner has left the critical section without releasing
    it (an exception between [acquire] and [release]: the tick thread dying
    in its drain or send loop, the acceptor in the constructor, a producer
    whose [str_to_player_data] raises) stays owned by that thread for ever,
    and no thread enters that critical section again. *)
Theorem abandoned_lock_is_never_released (s s' : Sys) (l : lock) (t : nat) :
  reachable s ->
  abandoned l t s ->
  steps s s' ->
  abandoned l t s' /\
  forall (t2 : nat) (c2 : pc),
    threads s' !! t2 = Some c2 -> in_critical_section l c2 = false.
Proof.
  intros Hreach Hab Hsteps.
  assert (Hab' : abandoned l t s').
  { induction Hsteps as [| s s' s'' Hsteps IH Hstep]; [assumption |].
    destruct (reachable_invariants s' (steps_reachable s s' Hreach Hsteps))
      as [Hown Hcrit].
    exact (abandoned_step s' s'' l t Hown Hcrit (IH Hreach Hab) Hstep). }
  split; [exact Hab' |].
  intros t2 c2 Ht2.
  destruct (in_critical_section l c2) eqn:Hc2; [| reflexivity].
  destruct (reachable_invariants s' (steps_reachable s s' Hreach Hsteps))
    as [_ Hcrit].
  destruct Hab' as (Ho & c & Ht & _ & Hout).
  pose proof (Hcrit l t2 c2 Ht2 Hc2) as Ho2.
  assert (t2 = t) by congruence. subst t2.
  assert (c2 = c) by congruence. subst c2. congruence.
Qed.

End LockMore.

(** While the main thread drains, it is the only thread in that section. *)
Lemma critical_sections_exclude_witness : 0%nat = 0%nat.
Proof.
  apply (critical_sections_exclude Locks.draining Locks.q_drain_lock 0%nat 0%nat
           Locks.TickDrain Locks.TickDrain).
  - exact draining_reachable.
  - reflexivity.
  - reflexivity.
  - reflexivity.
  - reflexivity.
Defined.

Lemma drain_crashed_reachable : Locks.reachable Locks.drain_crashed.
Proof.
  apply (Locks.reachable_step Locks.draining); [exact draining_reachable |].
  apply (Locks.step_local 0%nat Locks.TickDrain Locks.Dead Locks.draining).
  - reflexivity.
  - constructor.
Defined.

(** The main thread dies in the drain loop: [q_drain_lock] stays taken. *)
Lemma abandoned_lock_is_never_released_witness :
  Locks.abandoned Locks.q_drain_lock 0%nat Locks.drain_crashed /\
  forall (t2 : nat) (c2 : Locks.pc),
    Locks.threads Locks.drain_crashed !! t2 = Some c2 ->
    Locks.in_critical_section Locks.q_drain_lock c2 = false.
Proof.
  apply (abandoned_lock_is_never_released Locks.drain_crashed Locks.drain_crashed
           Locks.q_drain_lock 0%nat).
  - exact drain_crashed_reachable.
  - split; [reflexivity |]. exists Locks.Dead. repeat split; reflexivity.
  - apply Locks.steps_refl.
Defined.

(** ** The text protocol of client_state_producer *)

Section TextProtocol.

Import Server.

Lemma split_tilde_nonempty (s : string) :
  exists (piece : string) (pieces : list string), split_tilde s = piece :: pieces.
Proof.
  destruct s as [| c s]; simpl; [eauto |].
  destruct (Ascii.eqb c "~"); [eauto |].
  destruct (split_tilde s); eauto.
Qed.

(** X8.  Splitting on ['~'] loses nothing and leaves no separator behind:
    joining the pieces with ['~'] gives the text back, there is always at
    least one piece, and no piece contains ['~']. *)
Theorem split_tilde_join (s : string) :
  join_tilde (split_tilde s) = s /\
  split_tilde s <> [] /\
  Forall (fun piece => has_tilde piece = false) (split_tilde s).
Proof.
  induction s as [| c s (IHjoin & IHne & IHfree)].
  - simpl. repeat split; [discriminate | repeat constructor].
  - cbn [split_tilde].
    destruct (split_tilde_nonempty s) as (piece & pieces & Hs).
    rewrite Hs in *.
    destruct (Ascii.eqb c "~") eqn:Hc.
    + apply Ascii.eqb_eq in Hc. subst c.
      split; [| split].
      * rewrite <- IHjoin. reflexivity.
      * discriminate.
      * constructor; [reflexivity | exact IHfree].
    + split; [| split].
      * rewrite <- IHjoin. destruct pieces; reflexivity.
      * discriminate.
      * inversion IHfree as [| ? ? Hp Hps]; subst.
        constructor; [| exact Hps]. simpl. rewrite Hc. exact Hp.
Qed.

Lemma append_assoc (a b c : string) :
  String.append a (String.append b c) = String.append (String.append a b) c.
Proof.
  induction a as [| x a IH]; [reflexivity |].
  change (String x (String.append a (String.append b c)) =
          String x (String.append (String.append a b) c)).
  rewrite IH. reflexivity.
Qed.

(** Splitting a text received in two parts: the complete records of the
    first part, then the split of its unfinished tail followed by the second
    part. *)
Lemma split_tilde_app (x y : string) :
  split_tilde (String.append x y) =
  List.removelast (split_tilde x) ++
  split_tilde (String.append (List.last (split_tilde x) EmptyString) y).
Proof.
  induction x as [| c x IH].
  - reflexivity.
  - change (String.append (String c x) y) with (String c (String.append x y)).
    cbn [split_tilde]. rewrite IH.
    destruct (split_tilde_nonempty x) as (piece & pieces & Hx). rewrite Hx.
    destruct (Ascii.eqb c "~") eqn:Hc.
    + destruct pieces; reflexivity.
    + destruct pieces as [| p2 pieces'].
      * cbn [List.removelast List.last app].
        change (String.append (String c piece) y)
          with (String c (String.append piece y)).
        cbn [split_tilde]. rewrite Hc. reflexivity.
      * reflexivity.
Qed.

Lemma removelast_app_nonempty {A : Type} (l l' : list A) :
  l' <> [] -> List.removelast (l ++ l') = l ++ List.removelast l'.
Proof. intros Hne. apply List.removelast_app. exact Hne. Qed.

Lemma last_app_nonempty {A : Type} (l l' : list A) (d : A) :
  l' <> [] -> List.last (l ++ l') d = List.last l' d.
Proof.
  intros Hne. induction l as [| a l IH]; [reflexivity |].
  cbn [app]. remember (l ++ l') as m eqn:Hm. destruct m as [| a0 m].
  - symmetry in Hm. apply app_eq_nil in Hm. destruct Hm as [_ Hm]. congruence.
  - change (List.last (a0 :: m) d = List.last l' d). exact IH.
Qed.

Context {ServerPlayer Sendable : Type}.
Variable str_to_player_data : string -> result PlayerData.
Variable decode_utf8 : bytes -> result string.

Local Abbreviation put_all := (Server.put_all str_to_player_data).
Local Abbreviation producer_iteration :=
  (Server.producer_iteration ServerPlayer Sendable str_to_player_data decode_utf8).
Local Abbreviation producer_loop :=
  (Server.producer_loop ServerPlayer Sendable str_to_player_data decode_utf8).

Lemma put_all_app (l1 l2 : list string) (q : list PlayerData) :
  put_all (l1 ++ l2) q =
  match put_all l1 q with
  | (q', None) => put_all l2 q'
  | (q', Some e) => (q', Some e)
  end.
Proof.
  revert q. induction l1 as [| m l1 IH]; intros q; simpl; [reflexivity |].
  destruct (str_to_player_data m); [apply IH | reflexivity].
Qed.

(** X9.  The records the producer queues do not depend on how the stream
    cuts the text: receiving two parts one after the other leaves the thread
    (its buffer, the queue, the socket) exactly as receiving them in one
    piece does, provided each part decodes on its own to its share of the
    text. *)
Theorem producer_ignores_chunking (c : conn) (a b : bytes) (ta tb : string)
    (events : list recv_result) (recv_buffer : string)
    (st : State ServerPlayer Sendable) :
  a <> [] -> b <> [] ->
  decode_utf8 a = Ok ta ->
  decode_utf8 b = Ok tb ->
  decode_utf8 (a ++ b) = Ok (String.append ta tb) ->
  producer_loop c (RecvBytes a :: RecvBytes b :: events) recv_buffer st =
  producer_loop c (RecvBytes (a ++ b) :: events) recv_buffer st.
Proof.
  intros Ha Hb Hda Hdb Hdab.
  destruct a as [| a0 a]; [congruence |]. destruct b as [| b0 b]; [congruence |].
  cbn [Server.producer_loop].
  assert (Hone : producer_iteration c (RecvBytes ((a0 :: a) ++ b0 :: b)) recv_buffer st =
                 match put_all (List.removelast
                                  (split_tilde (String.append recv_buffer
                                                  (String.append ta tb))))
                               (state_queue st) with
                 | (q, None) =>
                     (Receiving (List.last (split_tilde
                                              (String.append recv_buffer
                                                 (String.append ta tb)))
                                           EmptyString),
                      set_queue _ _ q st)
                 | (q, Some _) => (Exited, close _ _ c (set_queue _ _ q st))
                 end).
  { change ((a0 :: a) ++ b0 :: b) with (a0 :: (a ++ b0 :: b)) in *.
    unfold Server.producer_iteration. rewrite Hdab. reflexivity. }
  rewrite Hone. clear Hone.
  unfold Server.producer_iteration at 1. rewrite Hda.
  rewrite (append_assoc recv_buffer ta tb).
  rewrite (split_tilde_app (String.append recv_buffer ta) tb).
  destruct (split_tilde_nonempty
              (String.append
                 (List.last (split_tilde (String.append recv_buffer ta)) EmptyString)
                 tb)) as (piece & pieces & Hsplit).
  rewrite removelast_app_nonempty by (rewrite Hsplit; discriminate).
  rewrite last_app_nonempty by (rewrite Hsplit; discriminate).
  rewrite put_all_app.
  destruct (put_all (List.removelast (split_tilde (String.append recv_buffer ta)))
                    (state_queue st)) as [q1 [e |]]; [reflexivity |].
  cbn [Server.producer_loop]. unfold Server.producer_iteration at 1.
  rewrite Hdb. simpl state_queue.
  destruct (put_all _ q1) as [q2 [e |]]; reflexivity.
Qed.

End TextProtocol.

(** Two records, the second one cut in the middle. *)
Lemma producer_ignores_chunking_witness :
  Server.producer_loop Examples.Avatar (Q * Q * Q) Examples.str_to_player_data
    Examples.decode_utf8 8%nat
    [Server.RecvBytes [Byte.x31; Byte.x7e; Byte.x32];
     Server.RecvBytes [Byte.x33; Byte.x7e]]
    EmptyString Examples.lobby =
  Server.producer_loop Examples.Avatar (Q * Q * Q) Examples.str_to_player_data
    Examples.decode_utf8 8%nat
    [Server.RecvBytes ([Byte.x31; Byte.x7e; Byte.x32] ++ [Byte.x33; Byte.x7e])]
    EmptyString Examples.lobby.
Proof.
  apply (producer_ignores_chunking Examples.str_to_player_data Examples.decode_utf8
           8%nat [Byte.x31; Byte.x7e; Byte.x32] [Byte.x33; Byte.x7e]
           (string_of_list_byte [Byte.x31; Byte.x7e; Byte.x32])
           (string_of_list_byte [Byte.x33; Byte.x7e]) [] EmptyString Examples.lobby).
  - discriminate.
  - discriminate.
  - reflexivity.
  - reflexivity.
  - reflexivity.
Defined.

(** ** The server's threads, end to end *)

Section ServerMore.

Import Server.

Context {ServerPlayer Sendable : Type}.
Variable new_player : Z -> conn -> ServerPlayer.
Variable socket : ServerPlayer -> conn.
Variable update_position : Q -> Q -> Q -> ServerPlayer -> ServerPlayer.
Variable update_aim : Q -> ServerPlayer -> ServerPlayer.
Variable get_sendable_state : ServerPlayer -> Sendable.
Variable str_to_player_data : string -> result PlayerData.
Variable decode_utf8 : bytes -> result string.
Variable pickle_dumps : list Sendable -> bytes.
Variable encode_id : Z -> bytes.

Local Abbreviation apply_to_player := (Server.apply_to_player _ update_position update_aim).
Local Abbreviation apply_input := (Server.apply_input _ update_position update_aim).
Local Abbreviation net_effect := (Server.net_effect _ update_position update_aim).
Local Abbreviation send_loop := (Server.send_loop _ _ socket pickle_dumps).
Local Abbreviation tick :=
  (Server.tick _ _ socket update_position update_aim get_sendable_state pickle_dumps).
Local Abbreviation tick_snapshot :=
  (Server.tick_snapshot _ _ update_position update_aim get_sendable_state).
Local Abbreviation put_all := (Server.put_all str_to_player_data).
Local Abbreviation producer_iteration :=
  (Server.producer_iteration ServerPlayer Sendable str_to_player_data decode_utf8).
Local Abbreviation client_state_producer :=
  (Server.client_state_producer ServerPlayer Sendable str_to_player_data decode_utf8).
Local Abbreviation acceptor_iteration :=
  (Server.acceptor_iteration ServerPlayer Sendable new_player encode_id).
Local Abbreviation threaded_server_acceptor :=
  (Server.threaded_server_acceptor ServerPlayer Sendable new_player encode_id).

(** The sockets of a player map, in its order. *)
Local Abbreviation sockets := (map (fun e : Z * ServerPlayer => socket (snd e))).

(** *** Inputs and the players they are not for *)

Lemma net_effect_unaddressed (k : Z) (q : list PlayerData) (p : ServerPlayer) :
  Forall (fun m => player_id m <> k) q -> net_effect k q p = p.
Proof.
  intros H. revert p. induction H as [| m q Hm Hq IH]; intros p; [reflexivity |].
  unfold Server.net_effect in *. simpl.
  destruct (player_id m =? k) eqn:E; [apply Z.eqb_eq in E; contradiction |].
  apply IH.
Qed.

Lemma keys_dict_alter (f : ServerPlayer -> ServerPlayer) (k : Z) (d : dict ServerPlayer) :
  map fst (dict_alter f k d) = map fst d.
Proof.
  induction d as [| [k0 v] d IH]; simpl; [reflexivity |].
  destruct (k0 =? k); simpl; [| rewrite IH]; reflexivity.
Qed.

Lemma keys_after_queue (q : list PlayerData) (d : dict ServerPlayer) :
  map fst (fold_left apply_input q d) = map fst d.
Proof.
  revert d. induction q as [| m q IH]; intros d; simpl; [reflexivity |].
  rewrite IH. unfold Server.apply_input.
  destruct (dict_get (player_id m) d); [apply keys_dict_alter | reflexivity].
Qed.

Lemma addresses_after_input (d : dict ServerPlayer) (m0 m : PlayerData) :
  addresses_a_player _ (apply_input d m0) m = addresses_a_player _ d m.
Proof.
  unfold Server.addresses_a_player.
  rewrite (dict_get_apply_input update_position update_aim).
  destruct (dict_get (player_id m) d); reflexivity.
Qed.

Lemma filter_addressed_after_input (d : dict ServerPlayer) (m0 : PlayerData)
    (q : list PlayerData) :
  List.filter (addresses_a_player _ (apply_input d m0)) q =
  List.filter (addresses_a_player _ d) q.
Proof.
  induction q as [| m q IH]; [reflexivity |].
  cbn [List.filter]. rewrite addresses_after_input, IH. reflexivity.
Qed.

Lemma drain_skips_unknown_ids (q : list PlayerData) (d : dict ServerPlayer) :
  fold_left apply_input q d =
  fold_left apply_input (List.filter (addresses_a_player _ d) q) d.
Proof.
  revert d. induction q as [| m q IH]; intros d; [reflexivity |].
  cbn [List.filter fold_left].
  destruct (addresses_a_player _ d m) eqn:Hm.
  - cbn [fold_left]. rewrite IH, filter_addressed_after_input. reflexivity.
  - assert (Hsame : apply_input d m = d).
    { unfold Server.apply_input. unfold Server.addresses_a_player in Hm.
      destruct (dict_get (player_id m) d); [discriminate | reflexivity]. }
    rewrite Hsame. apply IH.
Qed.

(** X10.  The guard [if player_id in id_to_player].  A pass of the tick loop
    does exactly what it would do with the inputs for unknown ids taken out
    of the queue: same players, same snapshot, same sends, same outcome; so
    such an input is dropped, adds no player and raises nothing.  No pass
    adds or removes a key of the map, and a player (or the absence of one)
    under an id that no queued input names is the same after the pass. *)
Theorem tick_ignores_inputs_for_unknown_ids (send_raises : conn -> bool)
    (st : State ServerPlayer Sendable) :
  tick send_raises st =
  tick send_raises
    (set_queue _ _ (List.filter (addresses_a_player _ (id_to_player st)) (state_queue st))
               st) /\
  map fst (id_to_player (fst (tick send_raises st))) = map fst (id_to_player st) /\
  forall k : Z,
    Forall (fun m => player_id m <> k) (state_queue st) ->
    dict_get k (id_to_player (fst (tick send_raises st))) =
    dict_get k (id_to_player st).
Proof.
  destruct (tick_unfold socket update_position update_aim get_sendable_state
              pickle_dumps send_raises st) as (_ & Hd & _).
  split; [| split].
  - unfold Server.tick. rewrite !(drain_fold update_position update_aim).
    cbn [set_queue state_queue id_to_player server_updates closed delivered].
    rewrite <- drain_skips_unknown_ids. reflexivity.
  - rewrite Hd. apply keys_after_queue.
  - intros k H. rewrite Hd, dict_get_after_queue.
    destruct (dict_get k (id_to_player st)) as [p |]; [| reflexivity].
    simpl. rewrite net_effect_unaddressed by exact H. reflexivity.
Qed.

(** *** From the socket to the players *)

Lemma put_all_parsed (messages : list string) (parsed q : list PlayerData) :
  Forall2 (fun s m => str_to_player_data s = Ok m) messages parsed ->
  put_all messages q = (q ++ parsed, None).
Proof.
  intros H. revert q. induction H as [| s m messages parsed Hs Hrest IH]; intros q.
  - simpl. rewrite app_nil_r. reflexivity.
  - simpl. rewrite Hs, IH, <- app_assoc. reflexivity.
Qed.

(** X11.  The way of an input.  When a [recv] returns bytes that decode, and
    the complete records (those before the last ['~']) all parse, the thread
    goes on with the unfinished tail as its buffer, the records are queued in
    order behind what was queued, and the next pass of the tick loop leaves
    every player with the net effect of the old queue followed by those
    records. *)
Theorem received_records_reach_the_players (c : conn) (data : bytes) (text : string)
    (recv_buffer : string) (parsed : list PlayerData)
    (st : State ServerPlayer Sendable) :
  data <> [] ->
  decode_utf8 data = Ok text ->
  Forall2 (fun s m => str_to_player_data s = Ok m)
          (List.removelast (split_tilde (String.append recv_buffer text))) parsed ->
  let out := producer_iteration c (RecvBytes data) recv_buffer st in
  fst out = Receiving (List.last (split_tilde (String.append recv_buffer text))
                                 EmptyString) /\
  state_queue (snd out) = state_queue st ++ parsed /\
  forall (send_raises : conn -> bool) (k : Z),
    dict_get k (id_to_player (fst (tick send_raises (snd out)))) =
    net_effect k (state_queue st ++ parsed) <$> dict_get k (id_to_player st).
Proof.
  intros Hdata Hdecode Hparsed. cbv zeta.
  assert (Hout : producer_iteration c (RecvBytes data) recv_buffer st =
                 (Receiving (List.last (split_tilde (String.append recv_buffer text))
                                       EmptyString),
                  set_queue _ _ (state_queue st ++ parsed) st)).
  { unfold Server.producer_iteration. destruct data as [| b data]; [congruence |].
    rewrite Hdecode, (put_all_parsed _ _ _ Hparsed). reflexivity. }
  rewrite Hout. split; [reflexivity |]. split; [reflexivity |].
  intros send_raises k.
  destruct (tick_unfold socket update_position update_aim get_sendable_state
              pickle_dumps send_raises
              (set_queue _ _ (state_queue st ++ parsed) st)) as (_ & Hd & _).
  simpl snd. rewrite Hd. simpl. apply dict_get_after_queue.
Qed.

(** *** Sockets through a pass *)

Hypothesis socket_update_position :
  forall (dx dy dt : Q) (p : ServerPlayer), socket (update_position dx dy dt p) = socket p.
Hypothesis socket_update_aim :
  forall (dm : Q) (p : ServerPlayer), socket (update_aim dm p) = socket p.

Lemma sockets_dict_alter (f : ServerPlayer -> ServerPlayer) (k : Z)
    (d : dict ServerPlayer) :
  (forall p, socket (f p) = socket p) ->
  sockets (dict_alter f k d) = sockets d.
Proof.
  intros Hf. induction d as [| [k0 v] d IH]; simpl; [reflexivity |].
  destruct (k0 =? k); simpl; [rewrite Hf | rewrite IH]; reflexivity.
Qed.

Lemma sockets_after_queue (q : list PlayerData) (d : dict ServerPlayer) :
  sockets (fold_left apply_input q d) = sockets d.
Proof.
  revert d. induction q as [| m q IH]; intros d; simpl; [reflexivity |].
  rewrite IH. unfold Server.apply_input.
  destruct (dict_get (player_id m) d); [| reflexivity].
  apply sockets_dict_alter. intros p. unfold Server.apply_to_player.
  rewrite socket_update_aim, socket_update_position. reflexivity.
Qed.

Lemma send_loop_all_sent (send_raises : conn -> bool) (ps : dict ServerPlayer)
    (updates : list Sendable) (st_closed : list conn) (log : list (conn * bytes)) :
  Forall (fun c => can_send send_raises st_closed c = true) (sockets ps) ->
  send_loop send_raises ps updates st_closed log =
  (log ++ map (fun c => (c, pickle_dumps updates)) (sockets ps), None).
Proof.
  revert log. induction ps as [| [k v] ps IH]; intros log Hall; simpl.
  - rewrite app_nil_r. reflexivity.
  - inversion Hall as [| ? ? Hv Hps]; subst. simpl in Hv.
    unfold can_send in Hv. apply negb_true_iff in Hv.
    unfold sendall. rewrite Hv, IH by exact Hps.
    rewrite <- app_assoc. reflexivity.
Qed.

Lemma send_loop_fails (send_raises : conn -> bool) (ps : dict ServerPlayer)
    (updates : list Sendable) (st_closed : list conn) (log : list (conn * bytes)) :
  Exists (fun c => can_send send_raises st_closed c = false) (sockets ps) ->
  snd (send_loop send_raises ps updates st_closed log) = Some OtherError.
Proof.
  revert log. induction ps as [| [k v] ps IH]; intros log Hex; simpl.
  - inversion Hex.
  - unfold sendall.
    destruct (send_raises (socket v) || bool_decide (socket v ∈ st_closed)) eqn:Hv;
      [reflexivity |].
    apply IH. inversion Hex as [? ? Hhead | ? ? Htail]; subst; [| exact Htail].
    simpl in Hhead. unfold can_send in Hhead. rewrite Hv in Hhead. discriminate.
Qed.

(** X12.  When every player's socket can be sent to, a pass ends without an
    exception, every client has been sent the snapshot exactly once, in the
    order of the player map, and [server_updates] is empty again. *)
Theorem tick_sends_snapshot_to_all (send_raises : conn -> bool)
    (st : State ServerPlayer Sendable) :
  Forall (fun c => can_send send_raises (closed st) c = true)
         (sockets (id_to_player st)) ->
  snd (tick send_raises st) = None /\
  delivered (fst (tick send_raises st)) =
    delivered st ++
    map (fun c => (c, pickle_dumps (tick_snapshot st))) (sockets (id_to_player st)) /\
  server_updates (fst (tick send_raises st)) = [].
Proof.
  intros Hall.
  pose proof (sockets_after_queue (state_queue st) (id_to_player st)) as Hsock.
  unfold Server.tick, Server.tick_snapshot.
  rewrite (drain_fold update_position update_aim). simpl.
  rewrite send_loop_all_sent by (rewrite Hsock; exact Hall).
  rewrite Hsock. simpl. repeat split; reflexivity.
Qed.

(** X13.  A disconnect stops the server.  Once the thread of a connection
    has left its loop on a lost connection, the socket is closed but its
    player is still in the map, so the next pass of the tick loop, which
    sends to every player, ends in the exception of that [sendall]. *)
Theorem disconnect_stops_the_tick_loop (send_raises : conn -> bool) (c : conn)
    (events : list recv_result) (st : State ServerPlayer Sendable) :
  existsb connection_lost events = true ->
  In c (sockets (id_to_player st)) ->
  snd (tick send_raises (snd (client_state_producer c events st))) = Some OtherError.
Proof.
  intros Hlost Hin. unfold Server.client_state_producer.
  destruct (producer_loop_frame str_to_player_data decode_utf8 c events EmptyString st)
    as (Hmap & Hclosed & Hexit).
  specialize (Hclosed (Hexit Hlost)).
  set (st' := snd (Server.producer_loop ServerPlayer Sendable str_to_player_data
                     decode_utf8 c events EmptyString st)) in *.
  destruct (tick_unfold socket update_position update_aim get_sendable_state
              pickle_dumps send_raises st') as (_ & _ & _ & _ & Hexn).
  rewrite Hexn. apply send_loop_fails.
  rewrite sockets_after_queue, Hmap.
  apply Exists_exists. exists c. split; [apply list_elem_of_In; exact Hin |].
  unfold can_send. apply negb_false_iff. apply orb_true_iff. right.
  apply bool_decide_eq_true. apply list_elem_of_In. exact Hclosed.
Qed.

End ServerMore.

(** ** threaded_server_acceptor *)

Section Acceptor.

Import Server.

Context {ServerPlayer Sendable : Type}.
Variable new_player : Z -> conn -> ServerPlayer.
Variable encode_id : Z -> bytes.

Local Abbreviation acceptor_iteration :=
  (Server.acceptor_iteration ServerPlayer Sendable new_player encode_id).
Local Abbreviation threaded_server_acceptor :=
  (Server.threaded_server_acceptor ServerPlayer Sendable new_player encode_id).

Lemma dict_set_fresh (k : Z) (v : ServerPlayer) (d : dict ServerPlayer) :
  Forall (fun e => fst e < k) d -> dict_set k v d = d ++ [(k, v)].
Proof.
  induction 1 as [| [k0 v0] d Hk Hd IH]; simpl; [reflexivity |].
  simpl in Hk. destruct (k0 =? k) eqn:E; [apply Z.eqb_eq in E; lia |].
  rewrite IH. reflexivity.
Qed.

Lemma acceptor_iteration_ok (send_raises : conn -> bool) (c : conn) (n : Z)
    (st : State ServerPlayer Sendable) :
  can_send send_raises (closed st) c = true ->
  Forall (fun e => fst e < n) (id_to_player st) ->
  acceptor_iteration send_raises c n st =
  Ok (n + 1,
      mkState (state_queue st) (id_to_player st ++ [(n, new_player n c)])
              (server_updates st) (closed st)
              (delivered st ++ [(c, encode_id n)])).
Proof.
  intros Hc Hkeys. unfold Server.acceptor_iteration, sendall.
  unfold can_send in Hc. apply negb_true_iff in Hc. rewrite Hc.
  unfold accept_connection, set_delivered. simpl.
  rewrite dict_set_fresh by exact Hkeys. reflexivity.
Qed.

Lemma keys_below_grow (n : Z) (v : ServerPlayer) (d : dict ServerPlayer) :
  Forall (fun e => fst e < n) d ->
  Forall (fun e => fst e < n + 1) (d ++ [(n, v)]).
Proof.
  intros H. apply Forall_app. split.
  - eapply Forall_impl; [exact H |]. intros e He. simpl in *. lia.
  - constructor; [simpl; lia | constructor].
Qed.

Lemma keys_distinct_grow (n : Z) (v : ServerPlayer) (d : dict ServerPlayer) :
  Forall (fun e => fst e < n) d ->
  List.NoDup (map fst d) ->
  List.NoDup (map fst (d ++ [(n, v)])).
Proof.
  intros Hlt Hnd. rewrite map_app. simpl.
  apply List.NoDup_app; [exact Hnd | |].
  - constructor; [intros [] | constructor].
  - intros k Hk [Hk' | []]. subst k.
    apply List.in_map_iff in Hk. destruct Hk as (e & He & Hin).
    rewrite List.Forall_forall in Hlt. specialize (Hlt e Hin). lia.
Qed.

(** X14.  The handshake.  As long as the ids can be sent, the acceptor gives
    the connections it accepts the consecutive ids [n], [n + 1], ... from its
    counter on: each client is sent its id, its player is appended to the map
    under that id, the players already there (all under smaller ids) are
    untouched, and the keys of the map stay distinct. *)
Theorem acceptor_assigns_consecutive_ids (send_raises : conn -> bool)
    (accepted : list conn) (n : Z) (st : State ServerPlayer Sendable) :
  Forall (fun c => can_send send_raises (closed st) c = true) accepted ->
  Forall (fun e => fst e < n) (id_to_player st) ->
  threaded_server_acceptor send_raises accepted n st =
    (n + Z.of_nat (length accepted),
     mkState (state_queue st)
             (id_to_player st ++
              imap (fun i c => (n + Z.of_nat i, new_player (n + Z.of_nat i) c)) accepted)
             (server_updates st) (closed st)
             (delivered st ++
              imap (fun i c => (c, encode_id (n + Z.of_nat i))) accepted),
     None) /\
  (List.NoDup (map fst (id_to_player st)) ->
   List.NoDup (map fst (id_to_player
                          (snd (fst (threaded_server_acceptor send_raises accepted n st)))))).
Proof.
  revert n st. induction accepted as [| c rest IH]; intros n st Hsend Hkeys.
  - simpl. split; [| auto].
    rewrite Z.add_0_r, !app_nil_r. destruct st; reflexivity.
  - pose proof (List.Forall_inv Hsend) as Hc.
    pose proof (List.Forall_inv_tail Hsend) as Hrest. simpl in Hc.
    cbn [Server.threaded_server_acceptor].
    rewrite (acceptor_iteration_ok send_raises c n st Hc Hkeys).
    set (st1 := mkState (state_queue st) (id_to_player st ++ [(n, new_player n c)])
                        (server_updates st) (closed st)
                        (delivered st ++ [(c, encode_id n)])).
    destruct (IH (n + 1) st1 Hrest (keys_below_grow n _ _ Hkeys)) as [Heq Hnd].
    split.
    + rewrite Heq. subst st1.
      cbn [state_queue id_to_player server_updates closed delivered].
      assert (Hplayers :
                imap (fun i x => (n + 1 + Z.of_nat i, new_player (n + 1 + Z.of_nat i) x)) rest =
                imap ((fun i x => (n + Z.of_nat i, new_player (n + Z.of_nat i) x)) ∘ S) rest).
      { apply imap_ext. intros i x _. simpl.
        replace (n + 1 + Z.of_nat i) with (n + Z.of_nat (S i)) by lia. reflexivity. }
      assert (Hids :
                imap (fun i x => (x, encode_id (n + 1 + Z.of_nat i))) rest =
                imap ((fun i x => (x, encode_id (n + Z.of_nat i))) ∘ S) rest).
      { apply imap_ext. intros i x _. simpl.
        replace (n + 1 + Z.of_nat i) with (n + Z.of_nat (S i)) by lia. reflexivity. }
      rewrite Hplayers, Hids, !imap_cons, <- !app_assoc.
      change (Z.of_nat 0) with 0. rewrite Z.add_0_r.
      replace (n + 1 + Z.of_nat (length rest)) with (n + Z.of_nat (length (c :: rest)))
        by (simpl length; lia).
      reflexivity.
    + intros Hdistinct. apply Hnd. subst st1. simpl.
      apply keys_distinct_grow; assumption.
Qed.

End Acceptor.

(** ** game_state_watcher on a framed stream *)

Section WatcherFacts.

Import Framing.

(** X15.  A pass of the receive loop never reads past its message: what it
    hands to [pickle.loads] is preceded on the stream by exactly the four
    bytes of its length, has that length, and is followed by exactly what is
    left for the next pass. *)
Theorem receive_message_takes_one_frame (chunks rest : list bytes) (message : bytes) :
  receive_message chunks = Some (message, rest) ->
  exists size_bytes : bytes,
    length size_bytes = 4%nat /\
    N.of_nat (length message) = from_bytes_little size_bytes /\
    concat chunks = size_bytes ++ message ++ concat rest.
Proof.
  intros H. destruct (receive_message_sound chunks rest message H)
    as (size_bytes & Hlen & Hmsg & Hcat).
  exists size_bytes. split; [exact Hlen |]. split; [| exact Hcat].
  rewrite Hmsg. apply N2Nat.id.
Qed.



End WatcherFacts.

(** A length of 1, the byte 41 and the three bytes after it. *)
Lemma receive_message_takes_one_frame_witness :
  exists size_bytes : Framing.bytes,
    length size_bytes = 4%nat /\
    N.of_nat (length [Byte.x41]) = Framing.from_bytes_little size_bytes /\
    concat [[Byte.x01; Byte.x00]; [Byte.x00; Byte.x00; Byte.x41; Byte.x00];
            [Byte.x00; Byte.x00]]
    = size_bytes ++ [Byte.x41] ++ concat [[Byte.x00]; [Byte.x00; Byte.x00]].
Proof.
  apply (receive_message_takes_one_frame
           [[Byte.x01; Byte.x00]; [Byte.x00; Byte.x00; Byte.x41; Byte.x00];
            [Byte.x00; Byte.x00]]
           [[Byte.x00]; [Byte.x00; Byte.x00]] [Byte.x41]).
  reflexivity.
Defined.


(** The three bytes [1~2]: the record [1] is complete, [2] is not. *)
Lemma received_records_reach_the_players_witness :
  let out := Server.producer_iteration Examples.Avatar (Q * Q * Q)
               Examples.str_to_player_data Examples.decode_utf8 8%nat
               (Server.RecvBytes [Byte.x31; Byte.x7e; Byte.x32]) EmptyString
               Examples.lobby in
  fst out = Server.Receiving
              (List.last (Server.split_tilde
                            (String.append EmptyString
                               (string_of_list_byte [Byte.x31; Byte.x7e; Byte.x32])))
                         EmptyString) /\
  Server.state_queue (snd out) =
    Server.state_queue Examples.lobby ++ [Server.mkPlayerData 0 1%Q 0%Q 0%Q 1%Q] /\
  forall (send_raises : Server.conn -> bool) (k : Z),
    Server.dict_get k
      (Server.id_to_player
         (fst (Server.tick Examples.Avatar (Q * Q * Q) Examples.avatar_conn
                 Examples.update_position Examples.update_aim
                 Examples.get_sendable_state Examples.pickle_dumps
                 send_raises (snd out)))) =
    Server.net_effect Examples.Avatar Examples.update_position Examples.update_aim k
      (Server.state_queue Examples.lobby ++ [Server.mkPlayerData 0 1%Q 0%Q 0%Q 1%Q])
    <$> Server.dict_get k (Server.id_to_player Examples.lobby).
Proof.
  apply (received_records_reach_the_players Examples.avatar_conn
           Examples.update_position Examples.update_aim Examples.get_sendable_state
           Examples.str_to_player_data Examples.decode_utf8 Examples.pickle_dumps
           8%nat [Byte.x31; Byte.x7e; Byte.x32]
           (string_of_list_byte [Byte.x31; Byte.x7e; Byte.x32]) EmptyString
           [Server.mkPlayerData 0 1%Q 0%Q 0%Q 1%Q] Examples.lobby).
  - discriminate.
  - reflexivity.
  - constructor; [reflexivity | constructor].
Defined.

(** Two players with sound sockets. *)
Lemma tick_sends_snapshot_to_all_witness :
  snd (Server.tick Examples.Avatar (Q * Q * Q) Examples.avatar_conn
         Examples.update_position Examples.update_aim Examples.get_sendable_state
         Examples.pickle_dumps (fun _ => false) Examples.lobby) = None /\
  Server.delivered
    (fst (Server.tick Examples.Avatar (Q * Q * Q) Examples.avatar_conn
            Examples.update_position Examples.update_aim Examples.get_sendable_state
            Examples.pickle_dumps (fun _ => false) Examples.lobby)) =
    Server.delivered Examples.lobby ++
    map (fun c => (c, Examples.pickle_dumps
                        (Server.tick_snapshot Examples.Avatar (Q * Q * Q)
                           Examples.update_position Examples.update_aim
                           Examples.get_sendable_state Examples.lobby)))
        (map (fun e : Z * Examples.Avatar => Examples.avatar_conn (snd e))
             (Server.id_to_player Examples.lobby)) /\
  Server.server_updates
    (fst (Server.tick Examples.Avatar (Q * Q * Q) Examples.avatar_conn
            Examples.update_position Examples.update_aim Examples.get_sendable_state
            Examples.pickle_dumps (fun _ => false) Examples.lobby)) = [].
Proof.
  apply (tick_sends_snapshot_to_all Examples.avatar_conn Examples.update_position
           Examples.update_aim Examples.get_sendable_state Examples.pickle_dumps).
  - intros dx dy dt p. reflexivity.
  - intros dm p. reflexivity.
  - repeat constructor.
Defined.

(** The client of player 1 (connection 8) goes away. *)
Lemma disconnect_stops_the_tick_loop_witness :
  snd (Server.tick Examples.Avatar (Q * Q * Q) Examples.avatar_conn
         Examples.update_position Examples.update_aim Examples.get_sendable_state
         Examples.pickle_dumps (fun _ => false)
         (snd (Server.client_state_producer Examples.Avatar (Q * Q * Q)
                 Examples.str_to_player_data Examples.decode_utf8 8%nat
                 [Server.RecvBytes []] Examples.lobby)))
  = Some OtherError.
Proof.
  apply (disconnect_stops_the_tick_loop Examples.avatar_conn Examples.update_position
           Examples.update_aim Examples.get_sendable_state
           Examples.str_to_player_data Examples.decode_utf8 Examples.pickle_dumps).
  - intros dx dy dt p. reflexivity.
  - intros dm p. reflexivity.
  - reflexivity.
  - simpl. right. left. reflexivity.
Defined.

(** The first two connections get the ids 0 and 1. *)
Lemma acceptor_assigns_consecutive_ids_witness :
  Server.threaded_server_acceptor Examples.Avatar (Q * Q * Q) Examples.new_player
    Examples.encode_id (fun _ => false) [7%nat; 8%nat] 0 Examples.empty_server =
    (0 + Z.of_nat (length [7%nat; 8%nat]),
     Server.mkState (Server.state_queue Examples.empty_server)
       (Server.id_to_player Examples.empty_server ++
        imap (fun i c => (0 + Z.of_nat i, Examples.new_player (0 + Z.of_nat i) c))
             [7%nat; 8%nat])
       (Server.server_updates Examples.empty_server)
       (Server.closed Examples.empty_server)
       (Server.delivered Examples.empty_server ++
        imap (fun i c => (c, Examples.encode_id (0 + Z.of_nat i))) [7%nat; 8%nat]),
     None) /\
  (List.NoDup (map fst (Server.id_to_player Examples.empty_server)) ->
   List.NoDup
     (map fst
        (Server.id_to_player
           (snd (fst (Server.threaded_server_acceptor Examples.Avatar (Q * Q * Q)
                        Examples.new_player Examples.encode_id (fun _ => false)
                        [7%nat; 8%nat] 0 Examples.empty_server)))))).
Proof.
  apply (acceptor_assigns_consecutive_ids Examples.new_player Examples.encode_id
           (fun _ => false) [7%nat; 8%nat] 0 Examples.empty_server).
  - repeat constructor.
  - constructor.
Defined.
